(** * PolarStereoPlateManager: placement and mipmap synthesis

    A shallow embedding of [src/vw/Plate/PolarStereoPlateManager.cc].

    Numeric conventions.  A C++ [int] is read as an integer ([Z]) and the
    range check of [boost::numeric_cast<int>] is written out; the [uint8]
    counter of the hemisphere vote wraps modulo 256 as in the source.  A C++
    [double] is read in three ways, each for what it can decide:
    - as a real number ([R]), every operation exact, in the main development;
      the one place where finite operands produce an IEEE infinity (the
      division [1.0 / std::min(...)] by a zero displacement) is kept as an
      explicit value, see [double_ext];
    - as a real number with every operation followed by a rounding [fl]
      (module [Rounded]), for what the selector guarantees once rounding is
      taken into account;
    - as a binary64 number with the IEEE operations themselves (module
      [Doubles]), to run the selector on concrete doubles. *)

From Stdlib Require PrimFloat FloatOps SpecFloat Uint63.
From Stdlib Require Import Reals Lra Lia ZArith List Bool String.
Import ListNotations.

Local Open Scope Z_scope.
Local Open Scope R_scope.

(** ** Exceptions *)

Inductive Exn : Type :=
| TileNotFoundErr
| bad_numeric_cast
| OtherErr (what : string).

Inductive Outcome (A : Type) : Type :=
| Ok (a : A)
| Throw (e : Exn).
Arguments Ok {A} a.
Arguments Throw {A} e.

(** ** vw::math *)

Definition Vector2 : Type := (R * R)%type.

Definition vadd (a b : Vector2) : Vector2 := (fst a + fst b, snd a + snd b).
Definition vsub (a b : Vector2) : Vector2 := (fst a - fst b, snd a - snd b).
Definition norm_2 (v : Vector2) : R := sqrt (fst v * fst v + snd v * snd v).

Record Matrix3x3 : Type := mkMatrix3x3 {
  m00 : R; m01 : R; m02 : R;
  m10 : R; m11 : R; m12 : R;
  m20 : R; m21 : R; m22 : R
}.

Definition identity_matrix3 : Matrix3x3 :=
  mkMatrix3x3 1 0 0
              0 1 0
              0 0 1.

Definition set_m00 (v : R) (m : Matrix3x3) : Matrix3x3 :=
  mkMatrix3x3 v (m01 m) (m02 m) (m10 m) (m11 m) (m12 m) (m20 m) (m21 m) (m22 m).
Definition set_m11 (v : R) (m : Matrix3x3) : Matrix3x3 :=
  mkMatrix3x3 (m00 m) (m01 m) (m02 m) (m10 m) v (m12 m) (m20 m) (m21 m) (m22 m).
Definition set_m02 (v : R) (m : Matrix3x3) : Matrix3x3 :=
  mkMatrix3x3 (m00 m) (m01 m) v (m10 m) (m11 m) (m12 m) (m20 m) (m21 m) (m22 m).
Definition set_m12 (v : R) (m : Matrix3x3) : Matrix3x3 :=
  mkMatrix3x3 (m00 m) (m01 m) (m02 m) (m10 m) (m11 m) v (m20 m) (m21 m) (m22 m).

(** [pow(2, level)] for an [int] exponent. *)
Definition pow2 (level : Z) : R := powerRZ 2 level.

(** [ceil] on reals, as an integer. *)
Definition ceil (x : R) : Z := (1 - up (- x))%Z.

(** [log(x)/log(2)]. *)
Definition log2 (x : R) : R := ln x / ln 2.

(** [boost::numeric_cast<int>]: throws when the value leaves the [int] range. *)
Definition INT_MIN : Z := (- 2147483648)%Z.
Definition INT_MAX : Z := 2147483647%Z.

Definition numeric_cast_int (z : Z) : Outcome Z :=
  if ((INT_MIN <=? z) && (z <=? INT_MAX))%Z then Ok z else Throw bad_numeric_cast.

(** A double that is either a real or the [+inf] of a division by zero. *)
Inductive double_ext : Type :=
| Finite (r : R)
| PlusInf.

(** [1.0 / d] for [d >= 0]. *)
Definition one_over (d : R) : double_ext :=
  if Req_dec_T d 0 then PlusInf else Finite (1 / d).

(** [a > b] on such doubles. *)
Definition ext_gt (a b : double_ext) : bool :=
  match a, b with
  | Finite x, Finite y => if Rlt_dec y x then true else false
  | PlusInf, Finite _ => true
  | _, PlusInf => false
  end.

(** ** vw::cartography

    [Datum], [GeoReference] and [GeoTransform] of vw/Cartography are not among
    the sources; they are kept as records of what the manager sets and reads,
    and their projection arithmetic is a parameter ([GeoMath] below). *)

Module cartography.

(** The reference ellipsoid; only its semi-major axis is used here. *)
Record Datum : Type := mkDatum {
  datum_name : string;
  semi_major_axis : R;
  semi_minor_axis : R
}.

Inductive Projection : Type :=
| Geographic
| Stereographic (center_lat center_lon scale false_easting false_northing : R)
| OtherProjection (proj4 : string).

Record GeoReference : Type := mkGeoReference {
  datum : Datum;
  projection : Projection;
  transform : Matrix3x3
}.

(** [GeoReference(datum)] *)
Definition GeoReference_of_datum (d : Datum) : GeoReference :=
  mkGeoReference d Geographic identity_matrix3.

Definition set_stereographic (center_lat center_lon scale fe fn : R)
           (g : GeoReference) : GeoReference :=
  mkGeoReference (datum g) (Stereographic center_lat center_lon scale fe fn)
                 (transform g).

Definition set_transform (m : Matrix3x3) (g : GeoReference) : GeoReference :=
  mkGeoReference (datum g) (projection g) m.

(** [GeoTransform(src, dst)] *)
Record GeoTransform : Type := mkGeoTransform {
  src_georef : GeoReference;
  dst_georef : GeoReference
}.

End cartography.
Import cartography.

(** ** Pixels and images

    [PixelT] is the template parameter of the manager.  Its arithmetic lives
    in the pixel layer, which the manager only uses through the operations
    below. *)

Class Pixel (PixelT : Type) : Type := {
  (** the default-constructed pixel, [PixelT()] *)
  pixel_default : PixelT;
  (** [is_transparent(pixel)] *)
  is_transparent_px : PixelT -> bool;
  (** [weight * pixel] *)
  pixel_scale : R -> PixelT -> PixelT;
  (** [pixel + pixel] *)
  pixel_add : PixelT -> PixelT -> PixelT
}.

(** [ImageView<PixelT>]: the extent and the pixel accessor [operator()(col,row)]. *)
Record ImageView (PixelT : Type) : Type := mkImageView {
  cols : Z;
  rows : Z;
  pixel_at : Z -> Z -> PixelT
}.
Arguments mkImageView {PixelT} cols rows pixel_at.
Arguments cols {PixelT} i.
Arguments rows {PixelT} i.
Arguments pixel_at {PixelT} i col row.

(** The cartography and resampling routines the manager calls. *)
Class GeoMath : Type := {
  (** [GeoReference::pixel_to_lonlat] *)
  pixel_to_lonlat : GeoReference -> Vector2 -> Vector2;
  (** [GeoTransform::forward] *)
  forward : GeoTransform -> Vector2 -> Vector2;
  (** [Datum(name)], the table of well-known datums *)
  Datum_of_name : string -> Datum
}.

Class Resampler (PixelT : Type) : Type := {
  (** [transform(image, geotx, ZeroEdgeExtension(), BicubicInterpolation())] *)
  transform_zero_bicubic : ImageView PixelT -> GeoTransform -> ImageView PixelT
}.

(** ** vw::platefile *)

Definition TransactionOrNeg : Type := Z.

Record PlateFile (PixelT : Type) : Type := mkPlateFile {
  default_tile_size : Z;
  (** [read(tile, col, row, level, transaction_id, exact_transaction)] *)
  read : Z -> Z -> Z -> TransactionOrNeg -> bool -> Outcome (ImageView PixelT);
  (** [write_update(tile, col, row, level, transaction_id)] *)
  write_update : ImageView PixelT -> Z -> Z -> Z -> TransactionOrNeg -> Outcome unit
}.
Arguments mkPlateFile {PixelT} default_tile_size read write_update.
Arguments default_tile_size {PixelT} p.
Arguments read {PixelT} p col row level transaction_id exact_transaction.
Arguments write_update {PixelT} p tile col row level transaction_id.

Record PolarStereoPlateManager (PixelT : Type) : Type := mkPolarStereoPlateManager {
  m_platefile : PlateFile PixelT
}.
Arguments mkPolarStereoPlateManager {PixelT} m_platefile.
Arguments m_platefile {PixelT} p.

(** The calls a manager issues to its plate file, in order. *)
Inductive Event (PixelT : Type) : Type :=
| EvRead (col row level : Z) (transaction_id : TransactionOrNeg) (exact : bool)
| EvWrite (tile : ImageView PixelT) (col row level : Z)
          (transaction_id : TransactionOrNeg).
Arguments EvRead {PixelT} col row level transaction_id exact.
Arguments EvWrite {PixelT} tile col row level transaction_id.

(** Code that talks to the plate file: it extends the log of calls and either
    returns or throws. *)
Definition PlateM (PixelT A : Type) : Type :=
  list (Event PixelT) -> Outcome A * list (Event PixelT).

Definition ret {PixelT A} (a : A) : PlateM PixelT A := fun log => (Ok a, log).

Definition bind {PixelT A B} (m : PlateM PixelT A) (k : A -> PlateM PixelT B)
  : PlateM PixelT B :=
  fun log =>
    match m log with
    | (Ok a, log') => k a log'
    | (Throw e, log') => (Throw e, log')
    end.

Notation "x <- m ;; k" := (bind m (fun x => k))
  (at level 61, m at next level, right associativity).

(** [try { body } catch (TileNotFoundErr &e) { handler }] *)
Definition try_catch_TileNotFoundErr {PixelT A}
           (body handler : PlateM PixelT A) : PlateM PixelT A :=
  fun log =>
    match body log with
    | (Throw TileNotFoundErr, log') => handler log'
    | r => r
    end.

Definition platefile_read {PixelT} (pf : PlateFile PixelT)
           (col row level : Z) (tid : TransactionOrNeg) (exact : bool)
  : PlateM PixelT (ImageView PixelT) :=
  fun log => (read pf col row level tid exact,
              log ++ [EvRead col row level tid exact]).

Definition platefile_write_update {PixelT} (pf : PlateFile PixelT)
           (tile : ImageView PixelT) (col row level : Z) (tid : TransactionOrNeg)
  : PlateM PixelT unit :=
  fun log => (write_update pf tile col row level tid,
              log ++ [EvWrite tile col row level tid]).

(** [for (k = ...) body], the loop state passed along. *)
Fixpoint for_each {PixelT S} (idx : list Z) (body : Z -> S -> PlateM PixelT S)
         (s : S) : PlateM PixelT S :=
  match idx with
  | [] => ret s
  | k :: ks => s' <- body k s ;; for_each ks body s'
  end.

(** ** Image operations used by the mipmap step *)

Section ImageOps.
Context {PixelT : Type} `{Pixel PixelT}.

(** Modelled from the spec: the constructor [ImageView<PixelT> img(w, h)] of
    vw/Image/ImageView.h, which is not among the sources; every pixel of a
    new image is default-constructed, that is, no-data. *)
Definition new_image (w h : Z) : ImageView PixelT :=
  mkImageView w h (fun _ _ => pixel_default).

(** Modelled from the spec: [crop(super, x0, y0, w, h) = child] of
    vw/Image/Manipulation.h, which is not among the sources; it places the
    child into the [w] x [h] block of the canvas at offset [(x0, y0)]. *)
Definition crop_assign (super : ImageView PixelT) (x0 y0 w h : Z)
           (child : ImageView PixelT) : ImageView PixelT :=
  mkImageView (cols super) (rows super)
    (fun x y =>
       if ((x0 <=? x) && (x <? x0 + w) && (y0 <=? y) && (y <? y0 + h))%Z
       then pixel_at child (x - x0) (y - y0)
       else pixel_at super x y).

Definition clamp (lo hi x : Z) : Z := Z.max lo (Z.min hi x).

(** Modelled from the spec: [ConstantEdgeExtension] of
    vw/Image/EdgeExtension.h, which is not among the sources; a coordinate
    outside the image reads the nearest pixel of the image. *)
Definition edge_extend_constant (img : ImageView PixelT) (x y : Z) : PixelT :=
  pixel_at img (clamp 0 (cols img - 1) x) (clamp 0 (rows img - 1) y).

Fixpoint correlate_1d (kernel : list R) (f : Z -> PixelT) (x : Z) : PixelT :=
  match kernel with
  | [] => pixel_default
  | [k] => pixel_scale k (f x)
  | k :: ks => pixel_add (pixel_scale k (f x)) (correlate_1d ks f (x + 1))
  end.

(** The kernel entry at index [c] meets the pixel at [x]. *)
Definition convolve_1d (kernel : list R) (c : Z) (f : Z -> PixelT) (x : Z)
  : PixelT :=
  correlate_1d (rev kernel) f (x - (Z.of_nat (List.length kernel) - 1 - c)).

(** Modelled from the spec: [separable_convolution_filter] of
    vw/Image/Filter.h, which is not among the sources; a separable filter
    along both axes with constant edge extension. *)
Definition separable_convolution_filter (src : ImageView PixelT)
           (x_kernel y_kernel : list R) (cx cy : Z) : ImageView PixelT :=
  mkImageView (cols src) (rows src)
    (fun x y =>
       convolve_1d y_kernel cy
         (fun y' => convolve_1d x_kernel cx
                      (fun x' => edge_extend_constant src x' y') x) y).

(** Modelled from the spec: [subsample] of vw/Image/Manipulation.h, which is
    not among the sources; decimation by a stride, no averaging. *)
Definition subsample (src : ImageView PixelT) (delta : Z) : ImageView PixelT :=
  mkImageView (1 + Z.quot (cols src - 1) delta) (1 + Z.quot (rows src - 1) delta)
    (fun x y => pixel_at src (x * delta) (y * delta)).

Definition range (n : Z) : list Z := map Z.of_nat (seq 0 (Z.to_nat n)).

(** Modelled from the spec: [is_transparent(image)] of
    vw/Image/Algorithms.h, which is not among the sources; true when no
    pixel carries valid data. *)
Definition is_transparent (img : ImageView PixelT) : bool :=
  forallb (fun y => forallb (fun x => is_transparent_px (pixel_at img x y))
                            (range (cols img)))
          (range (rows img)).

End ImageOps.

(** ** PolarStereoPlateManager *)

Section Manager.
Context {PixelT : Type} `{Pixel PixelT} `{GeoMath} `{Resampler PixelT}.

Definition georeference (this : PolarStereoPlateManager PixelT)
           (level : Z) (north_pole : bool) (datum : Datum) : GeoReference :=
  let output_georef := GeoReference_of_datum datum in
  let output_georef :=
    set_stereographic (if north_pole then 90 else -90) 0 1 0 0 output_georef in
  let transform := identity_matrix3 in
  let pixels_per_meters := 256 * pow2 level / (2 * semi_major_axis datum) in
  let transform := set_m00 (1 / pixels_per_meters) transform in
  let transform := set_m11 (-1 / pixels_per_meters) transform in
  let transform := set_m02 (- semi_major_axis datum) transform in
  let transform := set_m12 (semi_major_axis datum) transform in
  set_transform transform output_georef.

(** The overload [georeference(int level)]. *)
Definition georeference_level (this : PolarStereoPlateManager PixelT)
           (level : Z) : GeoReference :=
  georeference this level true (Datum_of_name "WGS84").

(** The five sample pixels; the quotients are [int] divisions. *)
Definition test_points (image : ImageView PixelT) : list Vector2 :=
  [ (IZR (Z.quot (cols image) 2),     IZR (Z.quot (rows image) 2));
    (IZR (Z.quot (cols image * 3) 4), IZR (Z.quot (rows image) 2));
    (IZR (Z.quot (cols image * 1) 4), IZR (Z.quot (rows image) 2));
    (IZR (Z.quot (cols image) 2),     IZR (Z.quot (rows image * 3) 4));
    (IZR (Z.quot (cols image) 2),     IZR (Z.quot (rows image * 1) 4)) ].

(** The [uint8] counter of samples on the northern hemisphere. *)
Definition count_north (georef : GeoReference) (pts : list Vector2) : Z :=
  fold_left
    (fun north_count p =>
       if Rlt_dec 0 (snd (pixel_to_lonlat georef p))
       then ((north_count + 1) mod 256)%Z
       else north_count)
    pts 0%Z.

Definition is_north_of (georef : GeoReference) (image : ImageView PixelT) : bool :=
  (2 <? count_north georef (test_points image))%Z.

(** The level-independent target used to measure the resolution. *)
Definition unit_output_georef (georef : GeoReference) (is_north : bool)
  : GeoReference :=
  let output_georef := GeoReference_of_datum (datum georef) in
  let output_georef :=
    set_stereographic (if is_north then 90 else -90) 0 1 0 0 output_georef in
  let transform := identity_matrix3 in
  let transform := set_m11 (-1) transform in
  let transform := set_m02 (- semi_major_axis (datum georef)) transform in
  let transform := set_m12 (semi_major_axis (datum georef)) transform in
  set_transform transform output_georef.

(** [std::min(norm_2(x_res), norm_2(y_res))] at one sample: the smaller of
    the two displacements of a unit pixel step. *)
Definition local_spacing (geotx : GeoTransform) (p : Vector2) : R :=
  let i_pos := forward geotx p in
  let x_res := vsub (forward geotx (vadd p (1, 0))) i_pos in
  let y_res := vsub (forward geotx (vadd p (0, 1))) i_pos in
  Rmin (norm_2 x_res) (norm_2 y_res).

Definition i_resolution (geotx : GeoTransform) (p : Vector2) : double_ext :=
  one_over (local_spacing geotx p).

(** The seed of the resolution loop. *)
Definition seed_pixels_per_meters (georef : GeoReference) : R :=
  256 / (2 * semi_major_axis (datum georef)).

Definition requested_pixels_per_meters (georef : GeoReference)
           (geotx : GeoTransform) (pts : list Vector2) : double_ext :=
  fold_left
    (fun requested p =>
       let r := i_resolution geotx p in
       if ext_gt r requested then r else requested)
    pts (Finite (seed_pixels_per_meters georef)).

(** The argument of the logarithm. *)
Definition level_argument (georef : GeoReference) (requested : R) : R :=
  requested * 2 * semi_major_axis (datum georef) / 256.

(** The level fit with every operation exact.  Where the quotient of the
    logarithms is within rounding of an integer the doubles of the source
    can give a neighbouring level: see [Rounded.fit_level] and
    [Doubles.fit_level]. *)
Definition fit_level (georef : GeoReference) (requested : double_ext)
  : Outcome Z :=
  match requested with
  | Finite r => numeric_cast_int (ceil (log2 (level_argument georef r)))
  | PlusInf => Throw bad_numeric_cast
  end.

(** What [transform_image] leaves in its reference parameters. *)
Record Placement : Type := mkPlacement {
  placed_image : ImageView PixelT;
  placed_txref : GeoTransform;
  placed_level : Z;
  placed_is_north : bool;
  placed_georef : GeoReference
}.

(** [GeoTransform geotx( georef, output_georef )] of the resolution loop. *)
Definition resolution_geotx (georef : GeoReference) (is_north : bool)
  : GeoTransform :=
  mkGeoTransform georef (unit_output_georef georef is_north).

(** The diagnostic output, and the bounding box computed only for it, are
    left out. *)
Definition transform_image (this : PolarStereoPlateManager PixelT)
           (georef : GeoReference) (image : ImageView PixelT)
  : Outcome Placement :=
  let is_north := is_north_of georef image in
  let geotx := resolution_geotx georef is_north in
  let requested :=
    requested_pixels_per_meters georef geotx (test_points image) in
  match fit_level georef requested with
  | Throw e => Throw e
  | Ok level =>
      let output_georef := georeference this level is_north (datum georef) in
      let geotx := mkGeoTransform georef output_georef in
      let holding := transform_zero_bicubic image geotx in
      Ok (mkPlacement holding geotx level is_north output_georef)
  end.

(** The requested resolution in the words of the specification: the
    maximum, over the samples, of the reciprocal of the local spacing,
    taken from the seed on. *)
Definition spec_requested_pixels_per_meters (seed : R) (geotx : GeoTransform)
           (pts : list Vector2) : R :=
  fold_left Rmax (map (fun p => 1 / local_spacing geotx p) pts) seed.

(** The hemisphere vote in the words of the specification: the number of
    samples of latitude above 0. *)
Definition spec_north_votes (georef : GeoReference) (pts : list Vector2) : nat :=
  List.length
    (filter (fun p => if Rlt_dec 0 (snd (pixel_to_lonlat georef p))
                      then true else false) pts).

(** The level a sample asks for fits an [int]: its local spacing is not
    below the pixel spacing of level [INT_MAX]. *)
Definition resolvable (georef : GeoReference) (geotx : GeoTransform)
           (p : Vector2) : Prop :=
  2 * semi_major_axis (datum georef) / 256
  <= pow2 INT_MAX * local_spacing geotx p.

(** One pass of the body of the child loop. *)
Definition gather_child (this : PolarStereoPlateManager PixelT)
           (col row level : Z) (transaction_id : TransactionOrNeg)
           (tile_size : Z) (j i : Z) (super : ImageView PixelT)
  : PlateM PixelT (ImageView PixelT) :=
  try_catch_TileNotFoundErr
    (let child_col := (2 * col + i)%Z in
     let child_row := (2 * row + j)%Z in
     child <- platefile_read (m_platefile this) child_col child_row
                             (level + 1)%Z transaction_id true ;;
     ret (crop_assign super (tile_size * i) (tile_size * j)
                      tile_size tile_size child))
    (ret super).

Definition gather_children (this : PolarStereoPlateManager PixelT)
           (col row level : Z) (transaction_id : TransactionOrNeg)
           (tile_size : Z) (super : ImageView PixelT)
  : PlateM PixelT (ImageView PixelT) :=
  for_each [0; 1]%Z
    (fun j =>
       for_each [0; 1]%Z
         (fun i => gather_child this col row level transaction_id tile_size j i))
    super.

Definition box_kernel : list R := [0.5; 0.5].

(** The parent tile made from the canvas. *)
Definition downsample (super : ImageView PixelT) (preblur : bool)
  : ImageView PixelT :=
  if preblur
  then subsample (separable_convolution_filter super box_kernel box_kernel 1 1) 2
  else subsample super 2.

(** [ImageView<PixelT> super(2*tile_size, 2*tile_size)] *)
Definition mipmap_canvas (this : PolarStereoPlateManager PixelT)
  : ImageView PixelT :=
  let tile_size := default_tile_size (m_platefile this) in
  new_image (2 * tile_size) (2 * tile_size).

Definition generate_mipmap_tile (this : PolarStereoPlateManager PixelT)
           (col row level : Z) (transaction_id : TransactionOrNeg)
           (preblur : bool) : PlateM PixelT unit :=
  let tile_size := default_tile_size (m_platefile this) in
  let super := mipmap_canvas this in
  super <- gather_children this col row level transaction_id tile_size super ;;
  let new_tile := downsample super preblur in
  if negb (is_transparent new_tile)
  then platefile_write_update (m_platefile this) new_tile col row level
                              transaction_id
  else ret tt.

(** A child read as the specification sees it: found, absent, or failed. *)
Inductive ChildRead : Type :=
| Found (tile : ImageView PixelT)
| Absent
| Error (cause : Exn).

Definition classify (o : Outcome (ImageView PixelT)) : ChildRead :=
  match o with
  | Ok tile => Found tile
  | Throw TileNotFoundErr => Absent
  | Throw e => Error e
  end.

(** The read of the child [(i, j)] of the tile [(col, row, level)]. *)
Definition child_read (this : PolarStereoPlateManager PixelT)
           (col row level : Z) (transaction_id : TransactionOrNeg)
           (child : Z * Z) : Outcome (ImageView PixelT) :=
  read (m_platefile this) (2 * col + fst child) (2 * row + snd child)
       (level + 1) transaction_id true.

Definition child_event (col row level : Z) (transaction_id : TransactionOrNeg)
           (child : Z * Z) : Event PixelT :=
  EvRead (2 * col + fst child) (2 * row + snd child) (level + 1)
         transaction_id true.

(** The children [(i, j)] in the order of the loops. *)
Definition children_in_order : list (Z * Z) :=
  [ (0, 0); (1, 0); (0, 1); (1, 1) ]%Z.

(** The gathering step in the words of the specification: for each child,
    an exact-transaction read; an absent child leaves the canvas as it is,
    a found one is placed into its quadrant, any other failure aborts. *)
Fixpoint spec_gather (this : PolarStereoPlateManager PixelT)
         (col row level : Z) (transaction_id : TransactionOrNeg)
         (tile_size : Z) (children : list (Z * Z))
         (super : ImageView PixelT) (log : list (Event PixelT))
  : Outcome (ImageView PixelT) * list (Event PixelT) :=
  match children with
  | [] => (Ok super, log)
  | child :: rest =>
      let log' := log ++ [child_event col row level transaction_id child] in
      match classify (child_read this col row level transaction_id child) with
      | Found tile =>
          spec_gather this col row level transaction_id tile_size rest
                      (crop_assign super (tile_size * fst child)
                                   (tile_size * snd child)
                                   tile_size tile_size tile)
                      log'
      | Absent =>
          spec_gather this col row level transaction_id tile_size rest super log'
      | Error e => (Throw e, log')
      end
  end.

(** The tile that ends up in the quadrant [(i, j)] of the canvas: that of the
    last child of that coordinate that was found. *)
Fixpoint placed_tile (this : PolarStereoPlateManager PixelT)
         (col row level : Z) (transaction_id : TransactionOrNeg)
         (children : list (Z * Z)) (i j : Z) : option (ImageView PixelT) :=
  match children with
  | [] => None
  | child :: rest =>
      match placed_tile this col row level transaction_id rest i j with
      | Some tile => Some tile
      | None =>
          if ((fst child =? i) && (snd child =? j))%Z
          then match classify (child_read this col row level transaction_id child) with
               | Found tile => Some tile
               | _ => None
               end
          else None
      end
  end.

(** The pixel [(a, b)] that the child [(i, j)] brings to the canvas: that of
    its tile when it was found, a default-constructed pixel otherwise. *)
Definition child_pixel (this : PolarStereoPlateManager PixelT)
           (col row level : Z) (transaction_id : TransactionOrNeg)
           (i j a b : Z) : PixelT :=
  match classify (child_read this col row level transaction_id (i, j)) with
  | Found tile => pixel_at tile a b
  | _ => pixel_default
  end.

(** The mean of two pixels under the box kernel. *)
Definition blend (a b : PixelT) : PixelT :=
  pixel_add (pixel_scale 0.5 a) (pixel_scale 0.5 b).

Definition is_write (ev : Event PixelT) : bool :=
  match ev with
  | EvWrite _ _ _ _ _ => true
  | EvRead _ _ _ _ _ => false
  end.

(** What the mipmap step needs of the pixel layer: a default-constructed
    pixel is transparent, a weighted sum of transparent pixels is
    transparent, and the mean of two valid pixels is valid. *)
Class PixelLaws : Prop := {
  default_transparent : is_transparent_px pixel_default = true;
  blend_transparent :
    forall (k : R) (a b : PixelT),
      is_transparent_px a = true -> is_transparent_px b = true ->
      is_transparent_px (pixel_add (pixel_scale k a) (pixel_scale k b)) = true;
  blend_valid :
    forall (a b : PixelT),
      is_transparent_px a = false -> is_transparent_px b = false ->
      is_transparent_px (pixel_add (pixel_scale 0.5 a) (pixel_scale 0.5 b)) = false
}.

End Manager.

(** ** Concrete pixels, stores and cartography used in the examples *)

Module Examples.

(** A pixel that is only its validity flag. *)
Definition MaskPixel : Pixel bool :=
  {| pixel_default := false;
     is_transparent_px := negb;
     pixel_scale := fun _ a => a;
     pixel_add := orb |}.

Definition sphere (r : R) : Datum := mkDatum "sphere" r r.

(** Source pixels are already metres of the target plane; the latitude of a
    pixel is read off the source transform. *)
Definition PlaneGeoMath : GeoMath :=
  {| pixel_to_lonlat := fun g _ => (m02 (transform g), m12 (transform g));
     forward := fun t p => (m00 (transform (src_georef t)) * fst p,
                            m00 (transform (src_georef t)) * snd p);
     Datum_of_name := fun name => mkDatum name 6378137 6356752 |}.

Definition KeepResampler : Resampler bool :=
  {| transform_zero_bicubic := fun image _ => image |}.

Definition solid (size : Z) : ImageView bool :=
  mkImageView size size (fun _ _ => true).

(** A store without tiles. *)
Definition empty_platefile (tile_size : Z) : PlateFile bool :=
  mkPlateFile tile_size
              (fun _ _ _ _ _ => Throw TileNotFoundErr)
              (fun _ _ _ _ _ => Ok tt).

(** A store holding one solid tile, at [(col, row, level)]. *)
Definition one_tile_platefile (tile_size col row level : Z) : PlateFile bool :=
  mkPlateFile tile_size
              (fun c r l _ _ =>
                 if ((c =? col) && (r =? row) && (l =? level))%Z
                 then Ok (solid tile_size)
                 else Throw TileNotFoundErr)
              (fun _ _ _ _ _ => Ok tt).

(** A store holding a solid tile at every address. *)
Definition full_platefile (tile_size : Z) : PlateFile bool :=
  mkPlateFile tile_size
              (fun _ _ _ _ _ => Ok (solid tile_size))
              (fun _ _ _ _ _ => Ok tt).

(** A store whose every read fails with an I/O error. *)
Definition broken_platefile (tile_size : Z) : PlateFile bool :=
  mkPlateFile tile_size
              (fun _ _ _ _ _ => Throw (OtherErr "IOErr"))
              (fun _ _ _ _ _ => Ok tt).

Definition manager (pf : PlateFile bool) : PolarStereoPlateManager bool :=
  mkPolarStereoPlateManager pf.

(** A source georeference on a sphere of radius [r] whose pixels lie at
    latitude [lat] and are [step] metres apart. *)
Definition source_georef (r lat step : R) : GeoReference :=
  mkGeoReference (sphere r) Geographic
                 (set_m00 step (set_m12 lat identity_matrix3)).

End Examples.

(** ** The selector with every double operation rounded

    [fl x] stands for the double nearest to the real [x] and [log_fl] for the
    C library's [log]; each arithmetic operation of the source is followed by
    [fl].  Overflow to an infinity is not modelled, but for [1.0 / 0]. *)

Class DoubleArith : Type := {
  fl : R -> R;
  log_fl : R -> R
}.

(** Exact arithmetic, the reading of the main development. *)
Definition ExactArith : DoubleArith :=
  {| fl := fun x => x; log_fl := ln |}.

Module Rounded.
Section Model.
Context {PixelT : Type} {DA : DoubleArith} {GM : GeoMath} {RS : Resampler PixelT}.

Definition vadd (a b : Vector2) : Vector2 :=
  (fl (fst a + fst b), fl (snd a + snd b)).
Definition vsub (a b : Vector2) : Vector2 :=
  (fl (fst a - fst b), fl (snd a - snd b)).
Definition norm_2 (v : Vector2) : R :=
  fl (sqrt (fl (fl (fst v * fst v) + fl (snd v * snd v)))).

Definition one_over (d : R) : double_ext :=
  if Req_dec_T d 0 then PlusInf else Finite (fl (1 / d)).

Definition georeference (this : PolarStereoPlateManager PixelT)
           (level : Z) (north_pole : bool) (datum : Datum) : GeoReference :=
  let output_georef := GeoReference_of_datum datum in
  let output_georef :=
    set_stereographic (if north_pole then 90 else -90) 0 1 0 0 output_georef in
  let transform := identity_matrix3 in
  let pixels_per_meters :=
    fl (fl (256 * fl (pow2 level)) / fl (2 * semi_major_axis datum)) in
  let transform := set_m00 (fl (1 / pixels_per_meters)) transform in
  let transform := set_m11 (fl (-1 / pixels_per_meters)) transform in
  let transform := set_m02 (- semi_major_axis datum) transform in
  let transform := set_m12 (semi_major_axis datum) transform in
  set_transform transform output_georef.

Definition local_spacing (geotx : GeoTransform) (p : Vector2) : R :=
  let i_pos := forward geotx p in
  let x_res := vsub (forward geotx (vadd p (1, 0))) i_pos in
  let y_res := vsub (forward geotx (vadd p (0, 1))) i_pos in
  Rmin (norm_2 x_res) (norm_2 y_res).

Definition i_resolution (geotx : GeoTransform) (p : Vector2) : double_ext :=
  one_over (local_spacing geotx p).

Definition seed_pixels_per_meters (georef : GeoReference) : R :=
  fl (256 / fl (2 * semi_major_axis (datum georef))).

Definition requested_pixels_per_meters (georef : GeoReference)
           (geotx : GeoTransform) (pts : list Vector2) : double_ext :=
  fold_left
    (fun requested p =>
       let r := i_resolution geotx p in
       if ext_gt r requested then r else requested)
    pts (Finite (seed_pixels_per_meters georef)).

Definition level_argument (georef : GeoReference) (requested : R) : R :=
  fl (fl (fl (requested * 2) * semi_major_axis (datum georef)) / 256).

(** [log(x)/log(2)] as computed. *)
Definition log2_fl (x : R) : R := fl (log_fl x / log_fl 2).

Definition fit_level (georef : GeoReference) (requested : double_ext)
  : Outcome Z :=
  match requested with
  | Finite r => numeric_cast_int (ceil (log2_fl (level_argument georef r)))
  | PlusInf => Throw bad_numeric_cast
  end.

Definition transform_image (this : PolarStereoPlateManager PixelT)
           (georef : GeoReference) (image : ImageView PixelT)
  : Outcome Placement :=
  let is_north := is_north_of georef image in
  let geotx := resolution_geotx georef is_north in
  let requested :=
    requested_pixels_per_meters georef geotx (test_points image) in
  match fit_level georef requested with
  | Throw e => Throw e
  | Ok level =>
      let output_georef := georeference this level is_north (datum georef) in
      let geotx := mkGeoTransform georef output_georef in
      let holding := transform_zero_bicubic image geotx in
      Ok (mkPlacement holding geotx level is_north output_georef)
  end.

(** The arithmetic is accurate to [u] and [eta]: every rounding has a
    relative error of at most [u] (the standard model of floating-point
    arithmetic, which binary64 meets with [u = 2^-53] as long as nothing
    underflows or overflows), and the computed [log(x)/log(2)] is not more
    than [eta] below the logarithm of [x] to base 2. *)
Definition accurate (u eta : R) : Prop :=
  (forall x, Rabs (fl x - x) <= u * Rabs x)
  /\ (forall x, 0 < x -> log2 x - eta <= log2_fl x).

(** How far rounding can carry the spacing of the fitted level above the
    spacing of a sample. *)
Definition slack (u eta : R) : R :=
  Rpower 2 eta * (1 + u) ^ 2 / (1 - u) ^ 7.

End Model.
End Rounded.

(** ** The selector on binary64 numbers

    The operations are those of IEEE 754 binary64; the C library's [log] and
    the projection arithmetic are parameters.  The resampling of the image,
    which no number of the placement depends on, is left out. *)

Module Doubles.
Import PrimFloat FloatOps SpecFloat.
Local Open Scope float_scope.

Definition Vector2 : Type := (float * float)%type.

Definition vadd (a b : Vector2) : Vector2 := (fst a + fst b, snd a + snd b).
Definition vsub (a b : Vector2) : Vector2 := (fst a - fst b, snd a - snd b).
Definition norm_2 (v : Vector2) : float := sqrt (fst v * fst v + snd v * snd v).

(** [std::min(a, b)] *)
Definition min (a b : float) : float := if b <? a then b else a.

Record Matrix3x3 : Type := mkMatrix3x3 {
  m00 : float; m01 : float; m02 : float;
  m10 : float; m11 : float; m12 : float;
  m20 : float; m21 : float; m22 : float
}.

Definition identity_matrix3 : Matrix3x3 :=
  mkMatrix3x3 1 0 0
              0 1 0
              0 0 1.

Definition set_m00 (v : float) (m : Matrix3x3) : Matrix3x3 :=
  mkMatrix3x3 v (m01 m) (m02 m) (m10 m) (m11 m) (m12 m) (m20 m) (m21 m) (m22 m).
Definition set_m11 (v : float) (m : Matrix3x3) : Matrix3x3 :=
  mkMatrix3x3 (m00 m) (m01 m) (m02 m) (m10 m) v (m12 m) (m20 m) (m21 m) (m22 m).
Definition set_m02 (v : float) (m : Matrix3x3) : Matrix3x3 :=
  mkMatrix3x3 (m00 m) (m01 m) v (m10 m) (m11 m) (m12 m) (m20 m) (m21 m) (m22 m).
Definition set_m12 (v : float) (m : Matrix3x3) : Matrix3x3 :=
  mkMatrix3x3 (m00 m) (m01 m) (m02 m) (m10 m) (m11 m) v (m20 m) (m21 m) (m22 m).

Record Datum : Type := mkDatum {
  semi_major_axis : float
}.

Inductive Projection : Type :=
| Geographic
| Stereographic (center_lat center_lon scale false_easting false_northing : float).

Record GeoReference : Type := mkGeoReference {
  datum : Datum;
  projection : Projection;
  transform : Matrix3x3
}.

Definition GeoReference_of_datum (d : Datum) : GeoReference :=
  mkGeoReference d Geographic identity_matrix3.

Definition set_stereographic (center_lat center_lon scale fe fn : float)
           (g : GeoReference) : GeoReference :=
  mkGeoReference (datum g) (Stereographic center_lat center_lon scale fe fn)
                 (transform g).

Definition set_transform (m : Matrix3x3) (g : GeoReference) : GeoReference :=
  mkGeoReference (datum g) (projection g) m.

Record GeoTransform : Type := mkGeoTransform {
  src_georef : GeoReference;
  dst_georef : GeoReference
}.

Class GeoMath : Type := {
  pixel_to_lonlat : GeoReference -> Vector2 -> Vector2;
  forward : GeoTransform -> Vector2 -> Vector2
}.

(** The C library. *)
Class Libm : Type := {
  log : float -> float
}.

(** An [int] as a double. *)
Definition of_int (z : Z) : float :=
  match z with
  | Z0 => 0
  | Zpos _ => of_uint63 (Uint63.of_Z z)
  | Zneg p => - of_uint63 (Uint63.of_Z (Zpos p))
  end.

(** [pow(2, level)] *)
Definition pow2 (level : Z) : float := Z.ldexp 1 level.

(** [boost::numeric_cast<int>(ceil(q))]: the ceiling of a finite double is
    taken exactly; an infinity does not fit an [int] (the cast of a NaN,
    which is undefined, is read as a throw too). *)
Definition numeric_cast_int_ceil (q : float) : Outcome Z :=
  match Prim2SF q with
  | S754_zero _ => Ok 0%Z
  | S754_finite s m e =>
      let whole := (Zpos m * 2 ^ e)%Z in
      let down := (Zpos m / 2 ^ (- e))%Z in
      let up := ((Zpos m + 2 ^ (- e) - 1) / 2 ^ (- e))%Z in
      numeric_cast_int
        (if (0 <=? e)%Z
         then (if s then (- whole)%Z else whole)
         else (if s then (- down)%Z else up))
  | S754_infinity _ => Throw bad_numeric_cast
  | S754_nan => Throw bad_numeric_cast
  end.

Section Model.
Context {GM : GeoMath} {LM : Libm}.

Definition georeference (level : Z) (north_pole : bool) (datum : Datum)
  : GeoReference :=
  let output_georef := GeoReference_of_datum datum in
  let output_georef :=
    set_stereographic (if north_pole then 90 else -90) 0 1 0 0 output_georef in
  let transform := identity_matrix3 in
  let pixels_per_meters := 256 * pow2 level / (2 * semi_major_axis datum) in
  let transform := set_m00 (1 / pixels_per_meters) transform in
  let transform := set_m11 (-1 / pixels_per_meters) transform in
  let transform := set_m02 (- semi_major_axis datum) transform in
  let transform := set_m12 (semi_major_axis datum) transform in
  set_transform transform output_georef.

Definition test_points (cols rows : Z) : list Vector2 :=
  [ (of_int (Z.quot cols 2),       of_int (Z.quot rows 2));
    (of_int (Z.quot (cols * 3) 4), of_int (Z.quot rows 2));
    (of_int (Z.quot (cols * 1) 4), of_int (Z.quot rows 2));
    (of_int (Z.quot cols 2),       of_int (Z.quot (rows * 3) 4));
    (of_int (Z.quot cols 2),       of_int (Z.quot (rows * 1) 4)) ].

Definition count_north (georef : GeoReference) (pts : list Vector2) : Z :=
  fold_left
    (fun north_count p =>
       if 0 <? snd (pixel_to_lonlat georef p)
       then ((north_count + 1) mod 256)%Z
       else north_count)
    pts 0%Z.

Definition is_north_of (georef : GeoReference) (cols rows : Z) : bool :=
  (2 <? count_north georef (test_points cols rows))%Z.

Definition unit_output_georef (georef : GeoReference) (is_north : bool)
  : GeoReference :=
  let output_georef := GeoReference_of_datum (datum georef) in
  let output_georef :=
    set_stereographic (if is_north then 90 else -90) 0 1 0 0 output_georef in
  let transform := identity_matrix3 in
  let transform := set_m11 (-1) transform in
  let transform := set_m02 (- semi_major_axis (datum georef)) transform in
  let transform := set_m12 (semi_major_axis (datum georef)) transform in
  set_transform transform output_georef.

Definition resolution_geotx (georef : GeoReference) (is_north : bool)
  : GeoTransform :=
  mkGeoTransform georef (unit_output_georef georef is_north).

Definition local_spacing (geotx : GeoTransform) (p : Vector2) : float :=
  let i_pos := forward geotx p in
  let x_res := vsub (forward geotx (vadd p (1, 0))) i_pos in
  let y_res := vsub (forward geotx (vadd p (0, 1))) i_pos in
  min (norm_2 x_res) (norm_2 y_res).

Definition i_resolution (geotx : GeoTransform) (p : Vector2) : float :=
  1 / local_spacing geotx p.

Definition seed_pixels_per_meters (georef : GeoReference) : float :=
  256 / (2 * semi_major_axis (datum georef)).

Definition requested_pixels_per_meters (georef : GeoReference)
           (geotx : GeoTransform) (pts : list Vector2) : float :=
  fold_left
    (fun requested p =>
       let r := i_resolution geotx p in
       if requested <? r then r else requested)
    pts (seed_pixels_per_meters georef).

Definition level_argument (georef : GeoReference) (requested : float) : float :=
  requested * 2 * semi_major_axis (datum georef) / 256.

Definition fit_level (georef : GeoReference) (requested : float) : Outcome Z :=
  numeric_cast_int_ceil (log (level_argument georef requested) / log 2).

Record Placement : Type := mkPlacement {
  placed_level : Z;
  placed_is_north : bool;
  placed_georef : GeoReference
}.

Definition transform_image (georef : GeoReference) (cols rows : Z)
  : Outcome Placement :=
  let is_north := is_north_of georef cols rows in
  let geotx := resolution_geotx georef is_north in
  let requested :=
    requested_pixels_per_meters georef geotx (test_points cols rows) in
  match fit_level georef requested with
  | Throw e => Throw e
  | Ok level =>
      let output_georef := georeference level is_north (datum georef) in
      Ok (mkPlacement level is_north output_georef)
  end.

End Model.

(** *** A run on WGS84 *)

Definition WGS84 : Datum := mkDatum 6378137.

(** Source pixels [step] metres apart in the target plane, at latitude
    [lat]. *)
Definition source_georef (lat step : float) : GeoReference :=
  mkGeoReference WGS84 Geographic
                 (set_m00 step (set_m12 lat identity_matrix3)).

Definition PlaneGeoMath : GeoMath :=
  {| pixel_to_lonlat := fun g _ => (m02 (transform g), m12 (transform g));
     forward := fun t p => (m00 (transform (src_georef t)) * fst p,
                            m00 (transform (src_georef t)) * snd p) |}.

(** The values of the C library's [log] at the two arguments it is called
    with in the run below: [log(1.0)] is [+0] and [log(2.0)] is the double
    nearest to the logarithm of 2. *)
Definition LogAtOneAndTwo : Libm :=
  {| log := fun x => if x =? 1 then 0
                     else if x =? 2 then 0x1.62e42fefa39efp-1
                     else nan |}.

(** The double next below [2 R / 256], the pixel spacing of level 0. *)
Definition just_below_level_0 : float := next_down (2 * 6378137 / 256).

End Doubles.

(** * Properties *)

(** ** Arithmetic of levels *)

Lemma pow2_pos (level : Z) : 0 < pow2 level.
Proof. unfold pow2. apply powerRZ_lt. lra. Qed.

Lemma pow2_0 : pow2 0 = 1.
Proof. reflexivity. Qed.

Lemma pow2_succ (level : Z) : pow2 (level + 1) = 2 * pow2 level.
Proof.
  unfold pow2. rewrite powerRZ_add by lra. simpl. lra.
Qed.

Section GeoreferenceFacts.
Context {PixelT : Type} `{Pixel PixelT} `{GeoMath} `{Resampler PixelT}.
Variable this : PolarStereoPlateManager PixelT.

Lemma georeference_spacing (level : Z) (north_pole : bool) (d : Datum) :
  0 < semi_major_axis d ->
  m00 (transform (georeference this level north_pole d))
  = 2 * semi_major_axis d / (256 * pow2 level).
Proof.
  intros HR. pose proof (pow2_pos level) as Hp.
  cbn. field. split; lra.
Qed.

Lemma georeference_spacing_y (level : Z) (north_pole : bool) (d : Datum) :
  0 < semi_major_axis d ->
  m11 (transform (georeference this level north_pole d))
  = - (2 * semi_major_axis d / (256 * pow2 level)).
Proof.
  intros HR. pose proof (pow2_pos level) as Hp.
  cbn. field. split; lra.
Qed.

Lemma georeference_projection (level : Z) (north_pole : bool) (d : Datum) :
  projection (georeference this level north_pole d)
  = Stereographic (if north_pole then 90 else -90) 0 1 0 0.
Proof. reflexivity. Qed.

Lemma georeference_origin (level : Z) (north_pole : bool) (d : Datum) :
  m02 (transform (georeference this level north_pole d)) = - semi_major_axis d
  /\ m12 (transform (georeference this level north_pole d)) = semi_major_axis d.
Proof. split; reflexivity. Qed.

End GeoreferenceFacts.

(** ** The descriptor builder *)

(** C3 (as the code has it): for every level, pole flag and datum with a
    positive semi-major axis [R], the three-argument [georeference] returns a
    stereographic projection centred at latitude +90 (north) or -90 (south),
    longitude 0, scale factor 1, over the given datum, whose affine transform
    has pixel spacing [2 R / (256 * 2^level)] in x, the negation of that in y,
    and origin [(-R, +R)]; the constant is 256 whatever the tile size of the
    manager's plate file. *)
Theorem georeference_descriptor
        {PixelT : Type} (this : PolarStereoPlateManager PixelT)
        (level : Z) (north_pole : bool) (d : Datum) :
  0 < semi_major_axis d ->
  let g := georeference this level north_pole d in
  projection g = Stereographic (if north_pole then 90 else -90) 0 1 0 0
  /\ datum g = d
  /\ m00 (transform g) = 2 * semi_major_axis d / (256 * pow2 level)
  /\ m11 (transform g) = - m00 (transform g)
  /\ m02 (transform g) = - semi_major_axis d
  /\ m12 (transform g) = semi_major_axis d
  /\ m01 (transform g) = 0 /\ m10 (transform g) = 0
  /\ m20 (transform g) = 0 /\ m21 (transform g) = 0 /\ m22 (transform g) = 1.
Proof.
  intros HR g. subst g.
  rewrite georeference_spacing_y, georeference_spacing by assumption.
  repeat split; reflexivity.
Qed.

Lemma georeference_descriptor_witness :
  let this := Examples.manager (Examples.empty_platefile 512) in
  let g := georeference this 3 true (Examples.sphere 128) in
  0 < semi_major_axis (Examples.sphere 128)
  /\ projection g = Stereographic 90 0 1 0 0
  /\ m00 (transform g) = 2 * 128 / (256 * pow2 3).
Proof.
  intros this g.
  assert (HR : 0 < semi_major_axis (Examples.sphere 128)) by (simpl; lra).
  split; [exact HR|].
  destruct (georeference_descriptor this 3 true (Examples.sphere 128) HR)
    as (Hp & _ & Hs & _).
  split; [exact Hp | exact Hs].
Defined.

(** C3 as worded, with [tile_size] the tile size of the plate file, fails on
    a store of 512-pixel tiles: the spacing at level 0 over a sphere of
    radius 128 is 1, not [2 * 128 / (512 * 2^0)]. *)
Lemma georeference_tile_size_counterexample :
  let this := Examples.manager (Examples.empty_platefile 512) in
  let d := Examples.sphere 128 in
  (0 <= 0)%Z /\ 0 < semi_major_axis d
  /\ m00 (transform (georeference this 0 true d))
     <> 2 * semi_major_axis d
        / (IZR (default_tile_size (m_platefile this)) * pow2 0).
Proof.
  intros this d. split; [lia|]. split; [simpl; lra|].
  rewrite georeference_spacing by (simpl; lra).
  rewrite pow2_0. simpl. lra.
Qed.

(** C8: for every level the single-argument [georeference] returns a
    north-pole descriptor, whatever manager (and so whatever pyramid) it is
    called on; it equals the three-argument builder called with the north
    pole. *)
Theorem georeference_level_is_north
        {PixelT : Type} `{GeoMath}
        (this other : PolarStereoPlateManager PixelT) (level : Z) :
  georeference_level this level
  = georeference this level true (Datum_of_name "WGS84")
  /\ projection (georeference_level this level) = Stereographic 90 0 1 0 0
  /\ georeference_level other level = georeference_level this level.
Proof.
  repeat split; reflexivity.
Qed.

(** C9: for every level the single-argument [georeference] builds its result
    over the fixed datum WGS84: the datum, the pixel spacing and the affine
    origin of the descriptor are those of WGS84, and nothing of the manager
    enters them. *)
Theorem georeference_level_uses_WGS84
        {PixelT : Type} `{GeoMath}
        (this : PolarStereoPlateManager PixelT) (level : Z) :
  let wgs84 := Datum_of_name "WGS84" in
  0 < semi_major_axis wgs84 ->
  let g := georeference_level this level in
  datum g = wgs84
  /\ m00 (transform g) = 2 * semi_major_axis wgs84 / (256 * pow2 level)
  /\ m11 (transform g) = - (2 * semi_major_axis wgs84 / (256 * pow2 level))
  /\ m02 (transform g) = - semi_major_axis wgs84
  /\ m12 (transform g) = semi_major_axis wgs84.
Proof.
  intros wgs84 HR g. subst g. unfold georeference_level. fold wgs84.
  rewrite georeference_spacing, georeference_spacing_y by assumption.
  repeat split; reflexivity.
Qed.

Lemma georeference_level_uses_WGS84_witness :
  let this := Examples.manager (Examples.empty_platefile 64) in
  let g := @georeference_level bool Examples.PlaneGeoMath this 2 in
  datum_name (datum g) = "WGS84"%string
  /\ m02 (transform g) = - 6378137.
Proof.
  intros this g.
  assert (HR : 0 < semi_major_axis (@Datum_of_name Examples.PlaneGeoMath "WGS84"))
    by (simpl; lra).
  destruct (@georeference_level_uses_WGS84 bool Examples.PlaneGeoMath this 2 HR)
    as (Hd & _ & _ & Ho & _).
  split.
  - fold g in Hd. rewrite Hd. reflexivity.
  - exact Ho.
Defined.

Lemma spacing_formula_agrees_iff (r p : R) (tile_size : Z) :
  0 < r -> 0 < p ->
  (2 * r / (256 * p) = 2 * r / (IZR tile_size * p) <-> tile_size = 256%Z).
Proof.
  intros Hr Hp. split.
  - intros E. unfold Rdiv in E.
    apply Rmult_eq_reg_l in E; [|lra].
    apply Rinv_eq_reg in E.
    apply Rmult_eq_reg_r in E; [|lra].
    apply eq_IZR. symmetry. exact E.
  - intros ->. reflexivity.
Qed.



(** ** Ceilings and logarithms *)

Lemma ceil_spec (x : R) : IZR (ceil x) - 1 < x <= IZR (ceil x).
Proof.
  unfold ceil. destruct (archimed (- x)) as [Hgt Hle].
  rewrite minus_IZR. split; lra.
Qed.

Lemma ceil_le (x : R) (n : Z) : x <= IZR n -> (ceil x <= n)%Z.
Proof.
  intros Hx. destruct (ceil_spec x) as [Hlo _].
  assert (Hlt : IZR (ceil x) < IZR (n + 1)) by (rewrite plus_IZR; lra).
  apply lt_IZR in Hlt. lia.
Qed.

Lemma ceil_ge (x : R) (n : Z) : IZR n <= x -> (n <= ceil x)%Z.
Proof.
  intros Hx. destruct (ceil_spec x) as [_ Hhi].
  apply le_IZR. lra.
Qed.

Lemma ceil_IZR (n : Z) : ceil (IZR n) = n.
Proof.
  apply Z.le_antisymm.
  - apply ceil_le. lra.
  - apply ceil_ge. lra.
Qed.

Lemma ln_2_pos : 0 < ln 2.
Proof. pose proof ln_lt_2. lra. Qed.

Lemma pow2_exp (n : Z) : pow2 n = exp (IZR n * ln 2).
Proof.
  unfold pow2. rewrite powerRZ_Rpower by lra. reflexivity.
Qed.

Lemma log2_pow2 (n : Z) : log2 (pow2 n) = IZR n.
Proof.
  unfold log2. rewrite pow2_exp, ln_exp. field.
  pose proof ln_2_pos. lra.
Qed.

Lemma ln_le_mono (x y : R) : 0 < x -> x <= y -> ln x <= ln y.
Proof.
  intros Hx [Hlt | ->]; [|lra].
  left. apply ln_increasing; assumption.
Qed.

Lemma log2_le_mono (x y : R) : 0 < x -> x <= y -> log2 x <= log2 y.
Proof.
  intros Hx Hxy. unfold log2. pose proof ln_2_pos as H2.
  apply Rmult_le_compat_r.
  - left. apply Rinv_0_lt_compat. assumption.
  - apply ln_le_mono; assumption.
Qed.

Lemma log2_1 : log2 1 = 0.
Proof. unfold log2. rewrite ln_1. unfold Rdiv. ring. Qed.

(** The fitted level resolves its argument: [x <= 2^ceil(log2 x)]. *)
Lemma pow2_ceil_log2 (x : R) : 0 < x -> x <= pow2 (ceil (log2 x)).
Proof.
  intros Hx. destruct (ceil_spec (log2 x)) as [_ Hhi].
  rewrite pow2_exp. rewrite <- (exp_ln x) at 1 by assumption.
  pose proof ln_2_pos as H2.
  assert (Hln : ln x <= IZR (ceil (log2 x)) * ln 2).
  { unfold log2 in Hhi.
    apply (Rmult_le_compat_r (ln 2)) in Hhi; [|lra].
    replace (ln x / ln 2 * ln 2) with (ln x) in Hhi by (field; lra).
    exact Hhi. }
  destruct Hln as [Hlt | Heq].
  - left. apply exp_increasing. exact Hlt.
  - rewrite Heq. lra.
Qed.

(** ... and it is the smallest such level. *)
Lemma ceil_log2_least (x : R) (n : Z) :
  0 < x -> x <= pow2 n -> (ceil (log2 x) <= n)%Z.
Proof.
  intros Hx Hle. apply ceil_le.
  rewrite <- log2_pow2. apply log2_le_mono; assumption.
Qed.

Lemma pow2_ge_1 (n : Z) : (0 <= n)%Z -> 1 <= pow2 n.
Proof.
  intros Hn. rewrite pow2_exp. rewrite <- exp_0.
  pose proof ln_2_pos as H2.
  assert (H0 : 0 <= IZR n * ln 2).
  { apply Rmult_le_pos; [apply IZR_le in Hn; exact Hn | lra]. }
  destruct H0 as [Hlt | Heq].
  - left. apply exp_increasing. exact Hlt.
  - rewrite <- Heq. lra.
Qed.

(** ** Maxima over the samples *)

Lemma fold_Rmax_ge_seed (l : list R) (seed : R) : seed <= fold_left Rmax l seed.
Proof.
  revert seed. induction l as [|r l IH]; intros seed; simpl.
  - lra.
  - apply Rle_trans with (Rmax seed r); [apply Rmax_l | apply IH].
Qed.

Lemma fold_Rmax_ge_elem (l : list R) (seed r : R) :
  In r l -> r <= fold_left Rmax l seed.
Proof.
  revert seed. induction l as [|a l IH]; intros seed Hin; simpl.
  - contradiction.
  - destruct Hin as [-> | Hin].
    + apply Rle_trans with (Rmax seed r); [apply Rmax_r | apply fold_Rmax_ge_seed].
    + apply IH. exact Hin.
Qed.

Lemma fold_Rmax_le_bound (l : list R) (seed b : R) :
  seed <= b -> (forall r, In r l -> r <= b) -> fold_left Rmax l seed <= b.
Proof.
  revert seed. induction l as [|a l IH]; intros seed Hs Hl; simpl.
  - exact Hs.
  - apply IH.
    + apply Rmax_lub; [exact Hs | apply Hl; left; reflexivity].
    + intros r Hr. apply Hl. right. exact Hr.
Qed.

Lemma ext_gt_Finite (r requested : R) :
  (if ext_gt (Finite r) (Finite requested) then Finite r else Finite requested)
  = Finite (Rmax requested r).
Proof.
  simpl. destruct (Rlt_dec requested r) as [Hlt | Hge].
  - rewrite Rmax_right by lra. reflexivity.
  - rewrite Rmax_left by lra. reflexivity.
Qed.

Lemma one_over_pos (d : R) : 0 < d -> one_over d = Finite (1 / d).
Proof.
  intros Hd. unfold one_over. destruct (Req_dec_T d 0) as [E | _]; [lra | reflexivity].
Qed.

Lemma one_over_zero : one_over 0 = PlusInf.
Proof.
  unfold one_over. destruct (Req_dec_T 0 0) as [_ | N]; [reflexivity | lra].
Qed.

(** ** The placement selector *)

Section SelectorFacts.
Context {PixelT : Type} {PX : Pixel PixelT} {GM : GeoMath}
        {RS : Resampler PixelT}.

Lemma test_points_length (image : ImageView PixelT) :
  List.length (test_points image) = 5%nat.
Proof. reflexivity. Qed.

(** The [uint8] counter never wraps on fewer than 256 samples. *)
Lemma count_north_from (georef : GeoReference) (pts : list Vector2) (n0 : Z) :
  (0 <= n0)%Z -> (n0 + Z.of_nat (List.length pts) < 256)%Z ->
  fold_left
    (fun north_count p =>
       if Rlt_dec 0 (snd (pixel_to_lonlat georef p))
       then ((north_count + 1) mod 256)%Z
       else north_count)
    pts n0
  = (n0 + Z.of_nat (spec_north_votes georef pts))%Z.
Proof.
  revert n0. induction pts as [|p pts IH]; intros n0 Hn0 Hlen.
  - simpl. lia.
  - cbn [fold_left]. unfold spec_north_votes. cbn [filter List.length] in *.
    destruct (Rlt_dec 0 (snd (pixel_to_lonlat georef p))) as [Hn | Hs].
    + rewrite Z.mod_small by lia.
      rewrite IH by lia. unfold spec_north_votes. cbn [List.length]. lia.
    + rewrite IH by lia. reflexivity.
Qed.

Lemma count_north_votes (georef : GeoReference) (image : ImageView PixelT) :
  count_north georef (test_points image)
  = Z.of_nat (spec_north_votes georef (test_points image)).
Proof.
  unfold count_north. rewrite count_north_from.
  - lia.
  - lia.
  - rewrite test_points_length. lia.
Qed.

Lemma votes_all_north (georef : GeoReference) (pts : list Vector2) :
  (forall p, In p pts -> 0 < snd (pixel_to_lonlat georef p)) ->
  spec_north_votes georef pts = List.length pts.
Proof.
  unfold spec_north_votes. induction pts as [|p pts IH]; intros Hall.
  - reflexivity.
  - cbn [filter]. destruct (Rlt_dec 0 (snd (pixel_to_lonlat georef p))) as [_ | N].
    + cbn [List.length]. f_equal. apply IH. intros q Hq. apply Hall. right. exact Hq.
    + exfalso. apply N. apply Hall. left. reflexivity.
Qed.

Lemma votes_all_south (georef : GeoReference) (pts : list Vector2) :
  (forall p, In p pts -> snd (pixel_to_lonlat georef p) <= 0) ->
  spec_north_votes georef pts = 0%nat.
Proof.
  unfold spec_north_votes. induction pts as [|p pts IH]; intros Hall.
  - reflexivity.
  - cbn [filter]. destruct (Rlt_dec 0 (snd (pixel_to_lonlat georef p))) as [Y | _].
    + exfalso. specialize (Hall p (or_introl eq_refl)). lra.
    + apply IH. intros q Hq. apply Hall. right. exact Hq.
Qed.

(** The resolution loop computes a running maximum. *)
Lemma requested_fold (geotx : GeoTransform) (pts : list Vector2) (seed : R) :
  (forall p, In p pts -> 0 < local_spacing geotx p) ->
  fold_left
    (fun requested p =>
       let r := i_resolution geotx p in
       if ext_gt r requested then r else requested)
    pts (Finite seed)
  = Finite (spec_requested_pixels_per_meters seed geotx pts).
Proof.
  unfold spec_requested_pixels_per_meters.
  revert seed. induction pts as [|p pts IH]; intros seed Hpos.
  - reflexivity.
  - cbn [fold_left map]. cbv zeta. unfold i_resolution.
    rewrite one_over_pos by (apply Hpos; left; reflexivity).
    rewrite ext_gt_Finite. apply IH.
    intros q Hq. apply Hpos. right. exact Hq.
Qed.

(** A sample of zero local spacing makes the loop end at [+inf]. *)
Lemma requested_PlusInf_absorbs (geotx : GeoTransform) (pts : list Vector2) :
  fold_left
    (fun requested p =>
       let r := i_resolution geotx p in
       if ext_gt r requested then r else requested)
    pts PlusInf
  = PlusInf.
Proof.
  induction pts as [|p pts IH]; [reflexivity|].
  cbn [fold_left]. cbv zeta.
  replace (ext_gt (i_resolution geotx p) PlusInf) with false
    by (destruct (i_resolution geotx p); reflexivity).
  exact IH.
Qed.

Lemma resolvable_pos (georef : GeoReference) (geotx : GeoTransform) (p : Vector2) :
  0 < semi_major_axis (datum georef) ->
  resolvable georef geotx p -> 0 < local_spacing geotx p.
Proof.
  unfold resolvable. intros HR Hres.
  pose proof (pow2_pos INT_MAX) as Hp.
  destruct (Rlt_dec 0 (local_spacing geotx p)) as [Hpos | Hneg]; [exact Hpos|].
  exfalso.
  assert (pow2 INT_MAX * local_spacing geotx p <= 0) by nra.
  lra.
Qed.

Section Level.
Variable this : PolarStereoPlateManager PixelT.
Variable georef : GeoReference.
Variable image : ImageView PixelT.

Let sma := semi_major_axis (datum georef).
Let is_north := is_north_of georef image.
Let geotx := resolution_geotx georef is_north.
Let pts := test_points image.
Let requested :=
  spec_requested_pixels_per_meters (seed_pixels_per_meters georef) geotx pts.

Hypothesis sma_pos : 0 < sma.
Hypothesis pts_resolvable : forall p, In p pts -> resolvable georef geotx p.

Lemma seed_pos : 0 < seed_pixels_per_meters georef.
Proof.
  unfold seed_pixels_per_meters. fold sma.
  apply Rdiv_lt_0_compat; lra.
Qed.

Lemma requested_ge_seed : seed_pixels_per_meters georef <= requested.
Proof. apply fold_Rmax_ge_seed. Qed.

Lemma level_argument_ge_1 : 1 <= level_argument georef requested.
Proof.
  unfold level_argument. fold sma.
  pose proof requested_ge_seed as Hs.
  unfold seed_pixels_per_meters in Hs. fold sma in Hs.
  apply (Rmult_le_compat_r (2 * sma / 256)) in Hs; [|lra].
  replace (256 / (2 * sma) * (2 * sma / 256)) with 1 in Hs by (field; lra).
  lra.
Qed.

Lemma level_argument_le_max : level_argument georef requested <= pow2 INT_MAX.
Proof.
  unfold level_argument. fold sma.
  pose proof (pow2_ge_1 INT_MAX ltac:(unfold INT_MAX; lia)) as H1.
  assert (Hres : forall p, In p pts ->
            2 * sma / 256 <= pow2 INT_MAX * local_spacing geotx p
            /\ 0 < local_spacing geotx p).
  { intros p Hp. split.
    - apply pts_resolvable. exact Hp.
    - apply (resolvable_pos georef); [exact sma_pos|].
      apply pts_resolvable. exact Hp. }
  revert H1 Hres. generalize (pow2 INT_MAX). intros P H1 Hres.
  assert (Hb : requested <= P * (256 / (2 * sma))).
  { apply fold_Rmax_le_bound.
    - pose proof seed_pos as Hs. unfold seed_pixels_per_meters in *.
      fold sma in Hs |- *. nra.
    - intros r Hr. apply in_map_iff in Hr. destruct Hr as (p & <- & Hp).
      destruct (Hres p Hp) as [Hle Hpos].
      apply (Rmult_le_reg_r (local_spacing geotx p)); [exact Hpos|].
      replace (1 / local_spacing geotx p * local_spacing geotx p) with 1
        by (field; lra).
      apply (Rmult_le_compat_r (256 / (2 * sma))) in Hle.
      + replace (2 * sma / 256 * (256 / (2 * sma))) with 1 in Hle
          by (field; lra).
        lra.
      + left. apply Rdiv_lt_0_compat; lra. }
  apply (Rmult_le_compat_r (2 * sma / 256)) in Hb; [|lra].
  replace (P * (256 / (2 * sma)) * (2 * sma / 256)) with P in Hb
    by (field; lra).
  lra.
Qed.

Lemma fitted_level_in_range :
  (0 <= ceil (log2 (level_argument georef requested)) <= INT_MAX)%Z.
Proof.
  pose proof level_argument_ge_1 as H1.
  split.
  - apply ceil_ge. rewrite <- log2_1. apply log2_le_mono; lra.
  - apply ceil_log2_least; [lra | apply level_argument_le_max].
Qed.

(** The selector returns, and this is what it returns. *)
Lemma transform_image_returns :
  let level := ceil (log2 (level_argument georef requested)) in
  let output_georef := georeference this level is_north (datum georef) in
  let final_geotx := mkGeoTransform georef output_georef in
  requested_pixels_per_meters georef geotx pts = Finite requested
  /\ transform_image this georef image
     = Ok (mkPlacement (transform_zero_bicubic image final_geotx)
                       final_geotx level is_north output_georef).
Proof.
  intros level output_georef final_geotx.
  assert (Hreq : requested_pixels_per_meters georef geotx pts = Finite requested).
  { unfold requested_pixels_per_meters. apply requested_fold.
    intros p Hp. apply (resolvable_pos georef); [exact sma_pos|].
    apply pts_resolvable. exact Hp. }
  split; [exact Hreq|].
  unfold transform_image. fold is_north. fold geotx. fold pts.
  rewrite Hreq. cbn [fit_level]. fold level.
  unfold numeric_cast_int.
  pose proof fitted_level_in_range as [Hlo Hhi]. fold level in Hlo, Hhi.
  replace (INT_MIN <=? level)%Z with true
    by (symmetry; apply Z.leb_le; unfold INT_MIN; lia).
  replace (level <=? INT_MAX)%Z with true
    by (symmetry; apply Z.leb_le; exact Hhi).
  reflexivity.
Qed.

End Level.

End SelectorFacts.

(** A sample whose unit steps do not move makes [1.0 / 0] infinite, and the
    cast of the level to [int] throws. *)
Lemma requested_reaches_PlusInf {GM : GeoMath}
      (geotx : GeoTransform) (pts : list Vector2) (start : double_ext) :
  (exists p, In p pts /\ local_spacing geotx p = 0) ->
  fold_left
    (fun requested p =>
       let r := i_resolution geotx p in
       if ext_gt r requested then r else requested)
    pts start
  = PlusInf.
Proof.
  revert start. induction pts as [|q pts IH]; intros start (p & Hin & Hzero).
  - contradiction.
  - cbn [fold_left]. cbv zeta. destruct Hin as [-> | Hin].
    + unfold i_resolution. rewrite Hzero, one_over_zero.
      destruct start as [r|]; cbn [ext_gt]; apply requested_PlusInf_absorbs.
    + apply IH. exists p. split; assumption.
Qed.

Lemma transform_image_zero_spacing_throws
      {PixelT : Type} {GM : GeoMath} {RS : Resampler PixelT}
      (this : PolarStereoPlateManager PixelT)
      (georef : GeoReference) (image : ImageView PixelT) :
  (exists p, In p (test_points image)
             /\ local_spacing (resolution_geotx georef (is_north_of georef image)) p
                = 0) ->
  transform_image this georef image = Throw bad_numeric_cast.
Proof.
  intros Hzero. unfold transform_image, requested_pixels_per_meters.
  rewrite requested_reaches_PlusInf by exact Hzero. reflexivity.
Qed.

Lemma pow2_le_mono (n m : Z) : (n <= m)%Z -> pow2 n <= pow2 m.
Proof.
  intros Hnm. rewrite !pow2_exp. pose proof ln_2_pos as H2.
  apply IZR_le in Hnm.
  assert (Hle : IZR n * ln 2 <= IZR m * ln 2) by nra.
  destruct Hle as [Hlt | Heq].
  - left. apply exp_increasing. exact Hlt.
  - rewrite Heq. lra.
Qed.

Lemma pow2_1 : pow2 1 = 2.
Proof. unfold pow2. simpl. lra. Qed.

Lemma pow2_2 : pow2 2 = 4.
Proof. unfold pow2. simpl. lra. Qed.

Lemma pow2_INT_MAX_ge_4 : 4 <= pow2 INT_MAX.
Proof.
  rewrite <- pow2_2. apply pow2_le_mono. unfold INT_MAX. lia.
Qed.

Lemma fold_Rmax_const (l : list R) (seed r : R) :
  l <> [] -> (forall x, In x l -> x = r) -> seed <= r ->
  fold_left Rmax l seed = r.
Proof.
  intros Hne Hall Hseed. apply Rle_antisym.
  - apply fold_Rmax_le_bound; [exact Hseed|].
    intros x Hx. rewrite (Hall x Hx). lra.
  - destruct l as [|a l]; [contradiction|].
    rewrite <- (Hall a (or_introl eq_refl)) at 1.
    apply fold_Rmax_ge_elem. left. reflexivity.
Qed.

(** On the plane cartography of the examples a unit pixel step moves by the
    step of the source georeference. *)
Lemma plane_local_spacing (t : GeoTransform) (p : Vector2) :
  0 < m00 (transform (src_georef t)) ->
  @local_spacing Examples.PlaneGeoMath t p = m00 (transform (src_georef t)).
Proof.
  intros Hs. unfold local_spacing, norm_2, vsub, vadd. cbn [forward Examples.PlaneGeoMath fst snd].
  set (s := m00 (transform (src_georef t))) in *.
  replace ((s * (fst p + 1) - s * fst p) * (s * (fst p + 1) - s * fst p)
           + (s * (snd p + 0) - s * snd p) * (s * (snd p + 0) - s * snd p))
    with (s * s) by ring.
  replace ((s * (fst p + 0) - s * fst p) * (s * (fst p + 0) - s * fst p)
           + (s * (snd p + 1) - s * snd p) * (s * (snd p + 1) - s * snd p))
    with (s * s) by ring.
  rewrite sqrt_square by lra. apply Rmin_left. lra.
Qed.

Lemma plane_spec_requested (t : GeoTransform) (pts : list Vector2) (seed : R) :
  0 < m00 (transform (src_georef t)) -> pts <> [] ->
  seed <= 1 / m00 (transform (src_georef t)) ->
  @spec_requested_pixels_per_meters Examples.PlaneGeoMath seed t pts
  = 1 / m00 (transform (src_georef t)).
Proof.
  intros Hs Hne Hseed. unfold spec_requested_pixels_per_meters.
  apply fold_Rmax_const.
  - destruct pts; [contradiction | discriminate].
  - intros x Hx. apply in_map_iff in Hx. destruct Hx as (p & <- & _).
    rewrite plane_local_spacing by exact Hs. reflexivity.
  - exact Hseed.
Qed.


Lemma example_resolvable (georef : GeoReference) (is_north : bool) (p : Vector2) :
  semi_major_axis (datum georef) = 128 ->
  m00 (transform georef) = 1 / 4 ->
  @resolvable Examples.PlaneGeoMath georef (resolution_geotx georef is_north) p.
Proof.
  intros HR Hs. unfold resolvable.
  rewrite plane_local_spacing by (cbn [src_georef resolution_geotx]; lra).
  cbn [src_georef resolution_geotx]. rewrite HR, Hs.
  pose proof pow2_INT_MAX_ge_4. lra.
Qed.



(** C6: the selector samples five pixels (the centre and the points a quarter
    and three quarters of the way along the two centre lines), turns each
    into a latitude through the source georeference, counts those of
    latitude strictly above 0, and takes the north pole exactly when more
    than 2 of the 5 are; all five above 0 gives north, all five at or below
    0 gives south, and the pole of the returned placement is that choice. *)
Theorem hemisphere_vote
        {PixelT : Type} {GM : GeoMath} {RS : Resampler PixelT}
        (this : PolarStereoPlateManager PixelT)
        (georef : GeoReference) (image : ImageView PixelT) :
  let c := cols image in
  let r := rows image in
  let pts := test_points image in
  let lat := fun p => snd (pixel_to_lonlat georef p) in
  pts = [ (IZR (Z.quot c 2), IZR (Z.quot r 2));
          (IZR (Z.quot (c * 3) 4), IZR (Z.quot r 2));
          (IZR (Z.quot (c * 1) 4), IZR (Z.quot r 2));
          (IZR (Z.quot c 2), IZR (Z.quot (r * 3) 4));
          (IZR (Z.quot c 2), IZR (Z.quot (r * 1) 4)) ]
  /\ count_north georef pts = Z.of_nat (spec_north_votes georef pts)
  /\ (is_north_of georef image = true <-> (2 < spec_north_votes georef pts)%nat)
  /\ ((forall p, In p pts -> 0 < lat p) -> is_north_of georef image = true)
  /\ ((forall p, In p pts -> lat p <= 0) -> is_north_of georef image = false)
  /\ (forall pl, transform_image this georef image = Ok pl ->
        placed_is_north pl = is_north_of georef image
        /\ projection (placed_georef pl)
           = Stereographic (if is_north_of georef image then 90 else -90) 0 1 0 0).
Proof.
  intros c r pts lat.
  pose proof (count_north_votes georef image) as Hcount. fold pts in Hcount.
  split; [reflexivity|]. split; [exact Hcount|].
  assert (Hiff : is_north_of georef image = true
                 <-> (2 < spec_north_votes georef pts)%nat).
  { unfold is_north_of. fold pts. rewrite Hcount. rewrite Z.ltb_lt. lia. }
  split; [exact Hiff|]. split; [|split].
  - intros Hall. apply Hiff. rewrite votes_all_north by exact Hall.
    unfold pts. rewrite test_points_length. lia.
  - intros Hall. apply not_true_is_false. intros E.
    apply Hiff in E. rewrite votes_all_south in E by exact Hall. lia.
  - intros pl Hpl. unfold transform_image in Hpl.
    destruct (fit_level georef _) as [level | e]; [|discriminate].
    injection Hpl as <-. split; reflexivity.
Qed.

Example hemisphere_vote_north :
  @is_north_of bool Examples.PlaneGeoMath
               (Examples.source_georef 128 45 1) (Examples.solid 8) = true.
Proof.
  unfold is_north_of, count_north. simpl.
  repeat (destruct (Rlt_dec 0 45) as [_ | N]; [|exfalso; lra]). reflexivity.
Qed.

Example hemisphere_vote_south :
  @is_north_of bool Examples.PlaneGeoMath
               (Examples.source_georef 128 0 1) (Examples.solid 8) = false.
Proof.
  unfold is_north_of, count_north. simpl.
  repeat (destruct (Rlt_dec 0 0) as [Y | _]; [exfalso; lra|]). reflexivity.
Qed.

(** ** The mipmap step *)

Section MipmapFacts.
Context {PixelT : Type} {PX : Pixel PixelT}.
Variable this : PolarStereoPlateManager PixelT.
Variables col row level : Z.
Variable transaction_id : TransactionOrNeg.

Let tile_size := default_tile_size (m_platefile this).

(** One pass of the loop body, by the result of its read. *)
Lemma gather_child_run (i j : Z) (super : ImageView PixelT)
      (log : list (Event PixelT)) :
  gather_child this col row level transaction_id tile_size j i super log
  = let log' := log ++ [child_event col row level transaction_id (i, j)] in
    match classify (child_read this col row level transaction_id (i, j)) with
    | Found tile =>
        (Ok (crop_assign super (tile_size * i) (tile_size * j)
                         tile_size tile_size tile), log')
    | Absent => (Ok super, log')
    | Error e => (Throw e, log')
    end.
Proof.
  unfold gather_child, try_catch_TileNotFoundErr, bind, platefile_read, ret,
    child_read, child_event. cbn [fst snd].
  destruct (read (m_platefile this) (2 * col + i) (2 * row + j) (level + 1)
                 transaction_id true) as [tile | e].
  - reflexivity.
  - destruct e; reflexivity.
Qed.

Lemma gather_children_refines (super : ImageView PixelT)
      (log : list (Event PixelT)) :
  gather_children this col row level transaction_id tile_size super log
  = spec_gather this col row level transaction_id tile_size
                children_in_order super log.
Proof.
  unfold gather_children, children_in_order.
  cbn [for_each spec_gather]. unfold bind.
  rewrite gather_child_run. cbv zeta.
  destruct (classify (child_read this col row level transaction_id (0, 0)%Z));
    cbn [ret fst snd]; try reflexivity;
  rewrite gather_child_run; cbv zeta;
  destruct (classify (child_read this col row level transaction_id (1, 0)%Z));
    cbn [ret fst snd]; try reflexivity;
  rewrite gather_child_run; cbv zeta;
  destruct (classify (child_read this col row level transaction_id (0, 1)%Z));
    cbn [ret fst snd]; try reflexivity;
  rewrite gather_child_run; cbv zeta;
  destruct (classify (child_read this col row level transaction_id (1, 1)%Z));
    cbn [ret fst snd]; reflexivity.
Qed.

Lemma crop_assign_quadrant (super tile : ImageView PixelT) (i j i' j' x y : Z) :
  (0 <= i <= 1)%Z -> (0 <= j <= 1)%Z -> (0 <= i' <= 1)%Z -> (0 <= j' <= 1)%Z ->
  (0 <= x < tile_size)%Z -> (0 <= y < tile_size)%Z ->
  pixel_at (crop_assign super (tile_size * i') (tile_size * j')
                        tile_size tile_size tile)
           (tile_size * i + x) (tile_size * j + y)
  = if ((i' =? i) && (j' =? j))%Z
    then pixel_at tile x y
    else pixel_at super (tile_size * i + x) (tile_size * j + y).
Proof.
  intros Hi Hj Hi' Hj' Hx Hy.
  unfold crop_assign. cbn [pixel_at].
  generalize tile_size, Hx, Hy. clear Hx Hy. intros ts Hx Hy.
  assert (Ei : i = 0%Z \/ i = 1%Z) by lia.
  assert (Ej : j = 0%Z \/ j = 1%Z) by lia.
  assert (Ei' : i' = 0%Z \/ i' = 1%Z) by lia.
  assert (Ej' : j' = 0%Z \/ j' = 1%Z) by lia.
  destruct Ei as [-> | ->], Ej as [-> | ->], Ei' as [-> | ->], Ej' as [-> | ->];
    cbn [Z.eqb Pos.eqb andb];
    repeat match goal with
           | |- context [(?a <=? ?b)%Z] => destruct (Z.leb_spec a b); [|try lia]
           | |- context [(?a <? ?b)%Z] => destruct (Z.ltb_spec a b); [|try lia]
           end;
    cbn [andb]; try lia; try reflexivity;
    f_equal; lia.
Qed.

Lemma spec_gather_pixels (children : list (Z * Z)) :
  (forall c, In c children -> (0 <= fst c <= 1)%Z /\ (0 <= snd c <= 1)%Z) ->
  forall (super : ImageView PixelT) (log : list (Event PixelT))
         (super' : ImageView PixelT) (log' : list (Event PixelT)),
    spec_gather this col row level transaction_id tile_size children super log
    = (Ok super', log') ->
    cols super' = cols super /\ rows super' = rows super
    /\ forall i j x y,
        (0 <= i <= 1)%Z -> (0 <= j <= 1)%Z ->
        (0 <= x < tile_size)%Z -> (0 <= y < tile_size)%Z ->
        pixel_at super' (tile_size * i + x) (tile_size * j + y)
        = match placed_tile this col row level transaction_id children i j with
          | Some tile => pixel_at tile x y
          | None => pixel_at super (tile_size * i + x) (tile_size * j + y)
          end.
Proof.
  induction children as [|c rest IH]; intros Hin super log super' log' Hrun.
  - cbn in Hrun. injection Hrun as <- <-. repeat split; reflexivity.
  - cbn [spec_gather placed_tile] in *.
    assert (Hrest : forall c', In c' rest ->
                      (0 <= fst c' <= 1)%Z /\ (0 <= snd c' <= 1)%Z)
      by (intros c' Hc'; apply Hin; right; exact Hc').
    destruct (Hin c (or_introl eq_refl)) as [Hci Hcj].
    destruct (classify (child_read this col row level transaction_id c))
      as [tile | | e].
    + destruct (IH Hrest _ _ _ _ Hrun) as (Hc & Hr & Hpx).
      split; [exact Hc|]. split; [exact Hr|].
      intros i j x y Hi Hj Hx Hy. rewrite (Hpx i j x y Hi Hj Hx Hy).
      destruct (placed_tile this col row level transaction_id rest i j);
        [reflexivity|].
      rewrite crop_assign_quadrant by assumption.
      destruct ((fst c =? i) && (snd c =? j))%Z; reflexivity.
    + destruct (IH Hrest _ _ _ _ Hrun) as (Hc & Hr & Hpx).
      split; [exact Hc|]. split; [exact Hr|].
      intros i j x y Hi Hj Hx Hy. rewrite (Hpx i j x y Hi Hj Hx Hy).
      destruct (placed_tile this col row level transaction_id rest i j);
        [reflexivity|].
      destruct ((fst c =? i) && (snd c =? j))%Z; reflexivity.
    + discriminate.
Qed.

(** The log of the gathering step only grows by reads, one per child tried;
    a failure is that of the last child tried. *)
Lemma spec_gather_log (children : list (Z * Z)) :
  forall (super : ImageView PixelT) (log : list (Event PixelT))
         (o : Outcome (ImageView PixelT)) (log' : list (Event PixelT)),
    spec_gather this col row level transaction_id tile_size children super log
    = (o, log') ->
    exists n : nat,
      (n <= List.length children)%nat
      /\ log' = log ++ map (child_event col row level transaction_id)
                          (firstn n children)
      /\ (forall s, o = Ok s -> n = List.length children)
      /\ (forall e, o = Throw e ->
            exists c, nth_error children (Nat.pred n) = Some c
                      /\ (0 < n)%nat
                      /\ child_read this col row level transaction_id c = Throw e
                      /\ e <> TileNotFoundErr).
Proof.
  induction children as [|c rest IH]; intros super log o log' Hrun.
  - cbn in Hrun. injection Hrun as <- <-. exists 0%nat.
    cbn. rewrite app_nil_r. repeat split; try lia; try reflexivity.
    intros e He. discriminate.
  - cbn [spec_gather] in Hrun.
    destruct (classify (child_read this col row level transaction_id c))
      as [tile | | e] eqn:Hc.
    + destruct (IH _ _ _ _ Hrun) as (n & Hn & Hlog & Hok & Hthrow).
      exists (S n). cbn [List.length firstn map]. split; [lia|]. split.
      * rewrite Hlog, <- app_assoc. reflexivity.
      * split.
        -- intros s Hs. rewrite (Hok s Hs). reflexivity.
        -- intros e He. destruct (Hthrow e He) as (c' & Hnth & Hpos & Hrd & Hne).
           exists c'. split; [|split; [lia | split; assumption]].
           destruct n; [lia|]. exact Hnth.
    + destruct (IH _ _ _ _ Hrun) as (n & Hn & Hlog & Hok & Hthrow).
      exists (S n). cbn [List.length firstn map]. split; [lia|]. split.
      * rewrite Hlog, <- app_assoc. reflexivity.
      * split.
        -- intros s Hs. rewrite (Hok s Hs). reflexivity.
        -- intros e He. destruct (Hthrow e He) as (c' & Hnth & Hpos & Hrd & Hne).
           exists c'. split; [|split; [lia | split; assumption]].
           destruct n; [lia|]. exact Hnth.
    + injection Hrun as <- <-. exists 1%nat. cbn [List.length firstn map].
      split; [lia|]. split; [reflexivity|]. split; [intros s Hs; discriminate|].
      intros e' He'. injection He' as <-. exists c. cbn.
      split; [reflexivity|]. split; [lia|].
      unfold classify in Hc.
      destruct (child_read this col row level transaction_id c) as [t | e0];
        [discriminate|].
      destruct e0; try discriminate; injection Hc as <-; split;
        try reflexivity; discriminate.
Qed.

Lemma placed_tile_in_order (i j : Z) :
  (0 <= i <= 1)%Z -> (0 <= j <= 1)%Z ->
  placed_tile this col row level transaction_id children_in_order i j
  = match classify (child_read this col row level transaction_id (i, j)) with
    | Found tile => Some tile
    | _ => None
    end.
Proof.
  intros Hi Hj.
  assert (Ei : i = 0%Z \/ i = 1%Z) by lia.
  assert (Ej : j = 0%Z \/ j = 1%Z) by lia.
  destruct Ei as [-> | ->], Ej as [-> | ->];
    unfold children_in_order; cbn [placed_tile fst snd Z.eqb Pos.eqb andb];
    repeat match goal with
           | |- context [classify ?r] => destruct (classify r)
           end; reflexivity.
Qed.

(** *** Images *)

Lemma In_range (n x : Z) : In x (range n) <-> (0 <= x < n)%Z.
Proof.
  unfold range. rewrite in_map_iff. split.
  - intros (k & <- & Hk). apply in_seq in Hk. lia.
  - intros Hx. exists (Z.to_nat x). split; [lia|]. apply in_seq. lia.
Qed.

Lemma is_transparent_true (img : ImageView PixelT) :
  is_transparent img = true
  <-> forall x y, (0 <= x < cols img)%Z -> (0 <= y < rows img)%Z ->
                  is_transparent_px (pixel_at img x y) = true.
Proof.
  unfold is_transparent. rewrite forallb_forall. split.
  - intros Hall x y Hx Hy.
    specialize (Hall y (proj2 (In_range _ _) Hy)).
    rewrite forallb_forall in Hall. apply Hall. apply In_range. exact Hx.
  - intros Hall y Hy. apply forallb_forall. intros x Hx.
    apply Hall; apply In_range; assumption.
Qed.

Lemma is_transparent_false (img : ImageView PixelT) (x y : Z) :
  (0 <= x < cols img)%Z -> (0 <= y < rows img)%Z ->
  is_transparent_px (pixel_at img x y) = false ->
  is_transparent img = false.
Proof.
  intros Hx Hy Hpx. apply not_true_is_false. intros Ht.
  rewrite is_transparent_true in Ht. rewrite (Ht x y Hx Hy) in Hpx. discriminate.
Qed.

Lemma clamp_inside (lo hi x : Z) : (lo <= x <= hi)%Z -> clamp lo hi x = x.
Proof. unfold clamp. lia. Qed.

Lemma downsample_plain_pixel (super : ImageView PixelT) (x y : Z) :
  pixel_at (downsample super false) x y = pixel_at super (x * 2) (y * 2).
Proof. reflexivity. Qed.

(** With the box kernel anchored at 1, the blurred and decimated pixel is the
    mean of the 2 x 2 block at [(2x, 2y)]. *)
Lemma downsample_blur_pixel (super : ImageView PixelT) (x y : Z) :
  pixel_at (downsample super true) x y
  = blend (blend (edge_extend_constant super (x * 2) (y * 2))
                 (edge_extend_constant super (x * 2 + 1) (y * 2)))
          (blend (edge_extend_constant super (x * 2) (y * 2 + 1))
                 (edge_extend_constant super (x * 2 + 1) (y * 2 + 1))).
Proof.
  unfold downsample, subsample, separable_convolution_filter, convolve_1d,
    box_kernel, blend.
  cbn [pixel_at rev app List.length correlate_1d Z.of_nat Pos.of_succ_nat
       Pos.succ Z.sub Z.add Z.opp Z.pos_sub Z.succ_double Z.pred_double
       Z.double Pos.pred_double].
  rewrite !Z.sub_0_r. reflexivity.
Qed.

Lemma downsample_size (super : ImageView PixelT) (preblur : bool) (n : Z) :
  (0 < n)%Z -> cols super = (2 * n)%Z -> rows super = (2 * n)%Z ->
  cols (downsample super preblur) = n /\ rows (downsample super preblur) = n.
Proof.
  intros Hn Hc Hr.
  assert (Hq : (1 + Z.quot (2 * n - 1) 2 = n)%Z).
  { rewrite Z.quot_div_nonneg by lia.
    replace (2 * n - 1)%Z with (1 + (n - 1) * 2)%Z by lia.
    rewrite Z.div_add by lia. rewrite Z.div_small by lia. lia. }
  destruct preblur; cbn [downsample subsample separable_convolution_filter cols rows];
    rewrite Hc, Hr; split; exact Hq.
Qed.

(** A canvas without valid pixels gives a tile without valid pixels. *)
Lemma downsample_transparent {PL : PixelLaws} (super : ImageView PixelT)
      (preblur : bool) :
  (forall x y, is_transparent_px (pixel_at super x y) = true) ->
  is_transparent (downsample super preblur) = true.
Proof.
  intros Hall. apply is_transparent_true. intros x y _ _.
  destruct preblur.
  - rewrite downsample_blur_pixel. unfold blend, edge_extend_constant.
    repeat apply blend_transparent; apply Hall.
  - rewrite downsample_plain_pixel. apply Hall.
Qed.

(** *** The run of the mipmap step *)

Lemma generate_mipmap_tile_run (preblur : bool) (log : list (Event PixelT)) :
  generate_mipmap_tile this col row level transaction_id preblur log
  = match spec_gather this col row level transaction_id tile_size
                      children_in_order (mipmap_canvas this) log with
    | (Ok super, log') =>
        let new_tile := downsample super preblur in
        if is_transparent new_tile
        then (Ok tt, log')
        else (write_update (m_platefile this) new_tile col row level
                           transaction_id,
              log' ++ [EvWrite new_tile col row level transaction_id])
    | (Throw e, log') => (Throw e, log')
    end.
Proof.
  unfold generate_mipmap_tile, bind. fold tile_size.
  rewrite gather_children_refines.
  destruct (spec_gather this col row level transaction_id tile_size
                        children_in_order (mipmap_canvas this) log)
    as [[super | e] log']; [|reflexivity].
  cbv zeta. destruct (is_transparent (downsample super preblur)); reflexivity.
Qed.

Lemma child_events_are_reads (children : list (Z * Z)) :
  filter is_write (map (child_event (PixelT := PixelT) col row level
                                    transaction_id) children) = [].
Proof.
  induction children as [|c rest IH]; [reflexivity | exact IH].
Qed.

Lemma gather_ok_canvas (log : list (Event PixelT))
      (super' : ImageView PixelT) (log' : list (Event PixelT)) :
  spec_gather this col row level transaction_id tile_size
              children_in_order (mipmap_canvas this) log = (Ok super', log') ->
  log' = log ++ map (child_event col row level transaction_id) children_in_order
  /\ cols super' = (2 * tile_size)%Z /\ rows super' = (2 * tile_size)%Z
  /\ forall i j x y,
      (0 <= i <= 1)%Z -> (0 <= j <= 1)%Z ->
      (0 <= x < tile_size)%Z -> (0 <= y < tile_size)%Z ->
      pixel_at super' (tile_size * i + x) (tile_size * j + y)
      = match classify (child_read this col row level transaction_id (i, j)) with
        | Found tile => pixel_at tile x y
        | _ => pixel_default
        end.
Proof.
  intros Hrun.
  destruct (spec_gather_log _ _ _ _ _ Hrun) as (n & _ & Hlog & Hok & _).
  rewrite (Hok _ eq_refl) in Hlog. cbn [List.length children_in_order firstn] in Hlog.
  split; [exact Hlog|].
  assert (Hin : forall c, In c children_in_order ->
                  (0 <= fst c <= 1)%Z /\ (0 <= snd c <= 1)%Z).
  { intros c Hc. unfold children_in_order in Hc. cbn in Hc.
    destruct Hc as [<- | [<- | [<- | [<- | []]]]]; cbn; lia. }
  destruct (spec_gather_pixels children_in_order Hin _ _ _ _ Hrun)
    as (Hc & Hr & Hpx).
  split; [exact Hc|]. split; [exact Hr|].
  intros i j x y Hi Hj Hx Hy.
  rewrite (Hpx i j x y Hi Hj Hx Hy), placed_tile_in_order by assumption.
  destruct (classify (child_read this col row level transaction_id (i, j)));
    reflexivity.
Qed.

(** C2: each of the four children read is the tile [(2 col + i, 2 row + j)]
    at [level + 1], for [i, j] in [{0, 1}], read under the given transaction
    with the exact-transaction flag; a read that reports not-found leaves the
    canvas as it is and the loop goes on, any other failure of a read leaves
    the loop and the whole step with that failure; each child that was read
    fills the [tile_size] x [tile_size] block of the canvas at offset
    [(i * tile_size, j * tile_size)]. *)
Theorem gather_children_reads (super : ImageView PixelT)
        (log : list (Event PixelT)) :
  (forall i j s l,
      gather_child this col row level transaction_id tile_size j i s l
      = let l' := l ++ [EvRead (2 * col + i) (2 * row + j) (level + 1)
                               transaction_id true] in
        match classify (read (m_platefile this) (2 * col + i) (2 * row + j)
                             (level + 1) transaction_id true) with
        | Found tile =>
            (Ok (crop_assign s (tile_size * i) (tile_size * j)
                             tile_size tile_size tile), l')
        | Absent => (Ok s, l')
        | Error e => (Throw e, l')
        end)
  /\ gather_children this col row level transaction_id tile_size super log
     = spec_gather this col row level transaction_id tile_size
                   children_in_order super log
  /\ (forall super' log',
        gather_children this col row level transaction_id tile_size
                        (mipmap_canvas this) log = (Ok super', log') ->
        log' = log ++ map (child_event col row level transaction_id)
                          children_in_order
        /\ cols super' = (2 * tile_size)%Z /\ rows super' = (2 * tile_size)%Z
        /\ forall i j x y,
            (0 <= i <= 1)%Z -> (0 <= j <= 1)%Z ->
            (0 <= x < tile_size)%Z -> (0 <= y < tile_size)%Z ->
            pixel_at super' (tile_size * i + x) (tile_size * j + y)
            = match classify (child_read this col row level transaction_id (i, j)) with
              | Found tile => pixel_at tile x y
              | _ => pixel_default
              end)
  /\ (forall e log' preblur,
        gather_children this col row level transaction_id tile_size
                        (mipmap_canvas this) log = (Throw e, log') ->
        e <> TileNotFoundErr
        /\ (exists n c,
              nth_error children_in_order n = Some c
              /\ child_read this col row level transaction_id c = Throw e
              /\ log' = log ++ map (child_event col row level transaction_id)
                                   (firstn (S n) children_in_order))
        /\ generate_mipmap_tile this col row level transaction_id preblur log
           = (Throw e, log')).
Proof.
  split; [|split; [|split]].
  - intros i j s l. apply gather_child_run.
  - apply gather_children_refines.
  - intros super' log' Hrun. rewrite gather_children_refines in Hrun.
    apply gather_ok_canvas. exact Hrun.
  - intros e log' preblur Hrun. rewrite gather_children_refines in Hrun.
    destruct (spec_gather_log _ _ _ _ _ Hrun) as (n & _ & Hlog & _ & Hthrow).
    destruct (Hthrow e eq_refl) as (c & Hnth & Hpos & Hrd & Hne).
    split; [exact Hne|]. split.
    + exists (Nat.pred n), c. split; [exact Hnth|]. split; [exact Hrd|].
      replace (S (Nat.pred n)) with n by lia. exact Hlog.
    + rewrite generate_mipmap_tile_run, Hrun. reflexivity.
Qed.

(** C1: when the downsampled tile is wholly invalid, and so in particular
    when all four child reads report not-found, the step issues no write and
    ends without a tile; otherwise it issues exactly one write, of that tile,
    at [(col, row, level)] under the given transaction, and that write comes
    after the four child reads. *)
Theorem mipmap_write_suppression (preblur : bool) (log : list (Event PixelT)) :
  let reads :=
    map (child_event col row level transaction_id) children_in_order in
  (forall super log',
      gather_children this col row level transaction_id tile_size
                      (mipmap_canvas this) log = (Ok super, log') ->
      let new_tile := downsample super preblur in
      log' = log ++ reads
      /\ (is_transparent new_tile = true ->
          generate_mipmap_tile this col row level transaction_id preblur log
          = (Ok tt, log ++ reads))
      /\ (is_transparent new_tile = false ->
          generate_mipmap_tile this col row level transaction_id preblur log
          = (write_update (m_platefile this) new_tile col row level
                          transaction_id,
             log ++ reads ++ [EvWrite new_tile col row level transaction_id])))
  /\ (forall o log'',
        generate_mipmap_tile this col row level transaction_id preblur log
        = (o, log'') ->
        exists added,
          log'' = log ++ added
          /\ (filter is_write added = []
              \/ exists new_tile,
                  added = reads ++ [EvWrite new_tile col row level transaction_id]
                  /\ is_transparent new_tile = false))
  /\ (PixelLaws ->
      (forall c, In c children_in_order ->
                 child_read this col row level transaction_id c
                 = Throw TileNotFoundErr) ->
      generate_mipmap_tile this col row level transaction_id preblur log
      = (Ok tt, log ++ reads)).
Proof.
  intros reads. split; [|split].
  - intros super log' Hrun new_tile. rewrite gather_children_refines in Hrun.
    destruct (gather_ok_canvas _ _ _ Hrun) as (Hlog & _). fold reads in Hlog.
    split; [exact Hlog|]. split.
    + intros Ht. rewrite generate_mipmap_tile_run, Hrun. cbv zeta.
      fold new_tile. rewrite Ht, Hlog. reflexivity.
    + intros Ht. rewrite generate_mipmap_tile_run, Hrun. cbv zeta.
      fold new_tile. rewrite Ht, Hlog, <- app_assoc. reflexivity.
  - intros o log'' Hgen. rewrite generate_mipmap_tile_run in Hgen.
    destruct (spec_gather this col row level transaction_id tile_size
                          children_in_order (mipmap_canvas this) log)
      as [[super | e] log'] eqn:Hrun.
    + destruct (gather_ok_canvas _ _ _ Hrun) as (Hlog & _). fold reads in Hlog.
      cbv zeta in Hgen.
      destruct (is_transparent (downsample super preblur)) eqn:Ht.
      * injection Hgen as <- <-. exists reads. split; [exact Hlog|].
        left. apply child_events_are_reads.
      * injection Hgen as <- <-.
        exists (reads ++ [EvWrite (downsample super preblur) col row level
                                  transaction_id]).
        split; [rewrite Hlog, <- app_assoc; reflexivity|].
        right. exists (downsample super preblur). split; [reflexivity | exact Ht].
    + injection Hgen as <- <-.
      destruct (spec_gather_log _ _ _ _ _ Hrun) as (n & _ & Hlog & _).
      exists (map (child_event col row level transaction_id)
                  (firstn n children_in_order)).
      split; [exact Hlog|]. left. apply child_events_are_reads.
  - intros PL Habsent.
    assert (Hrun : spec_gather this col row level transaction_id tile_size
                               children_in_order (mipmap_canvas this) log
                   = (Ok (mipmap_canvas this), log ++ reads)).
    { unfold reads, children_in_order. cbn [spec_gather map].
      rewrite !Habsent by (unfold children_in_order; cbn; tauto).
      cbn [classify]. rewrite <- !app_assoc. reflexivity. }
    rewrite generate_mipmap_tile_run, Hrun. cbv zeta.
    rewrite downsample_transparent; [reflexivity|].
    intros x y. apply default_transparent.
Qed.

Lemma spec_gather_ok (children : list (Z * Z)) :
  (forall c, In c children ->
     forall e, classify (child_read this col row level transaction_id c)
               <> Error e) ->
  forall (super : ImageView PixelT) (log : list (Event PixelT)),
  exists super' log',
    spec_gather this col row level transaction_id tile_size children super log
    = (Ok super', log').
Proof.
  induction children as [|c rest IH]; intros Hin super log.
  - exists super, log. reflexivity.
  - cbn [spec_gather].
    assert (Hrest : forall c', In c' rest ->
              forall e, classify (child_read this col row level transaction_id c')
                        <> Error e)
      by (intros c' Hc'; apply Hin; right; exact Hc').
    pose proof (Hin c (or_introl eq_refl)) as Hc.
    destruct (classify (child_read this col row level transaction_id c))
      as [tile | | e].
    + apply IH. exact Hrest.
    + apply IH. exact Hrest.
    + exfalso. apply (Hc e). reflexivity.
Qed.

Section PartialCoverage.
Context {PL : PixelLaws}.
Variables (half i0 j0 : Z) (child : ImageView PixelT).
Hypothesis half_pos : (0 < half)%Z.
Hypothesis even_size : tile_size = (2 * half)%Z.
Hypothesis i0_range : (0 <= i0 <= 1)%Z.
Hypothesis j0_range : (0 <= j0 <= 1)%Z.
Hypothesis present :
  child_read this col row level transaction_id (i0, j0) = Ok child.
Hypothesis child_valid :
  forall x y, (0 <= x < tile_size)%Z -> (0 <= y < tile_size)%Z ->
              is_transparent_px (pixel_at child x y) = false.
Hypothesis others_absent :
  forall c, In c children_in_order -> c <> (i0, j0) ->
            child_read this col row level transaction_id c
            = Throw TileNotFoundErr.

Lemma in_children_in_order (i j : Z) :
  (0 <= i <= 1)%Z -> (0 <= j <= 1)%Z -> In (i, j) children_in_order.
Proof.
  intros Hi Hj.
  assert (Ei : i = 0%Z \/ i = 1%Z) by lia.
  assert (Ej : j = 0%Z \/ j = 1%Z) by lia.
  destruct Ei as [-> | ->], Ej as [-> | ->]; unfold children_in_order; cbn; tauto.
Qed.

Lemma one_child_classify (i j : Z) :
  (0 <= i <= 1)%Z -> (0 <= j <= 1)%Z ->
  classify (child_read this col row level transaction_id (i, j))
  = if ((i =? i0) && (j =? j0))%Z then Found child else Absent.
Proof.
  intros Hi Hj.
  destruct (Z.eqb_spec i i0) as [-> | Ni]; [destruct (Z.eqb_spec j j0) as [-> | Nj]|];
    cbn [andb].
  - rewrite present. reflexivity.
  - rewrite others_absent; [reflexivity | apply in_children_in_order; assumption |].
    intros E. injection E as E. contradiction.
  - rewrite others_absent; [reflexivity | apply in_children_in_order; assumption |].
    intros E. injection E as E _. contradiction.
Qed.

Lemma one_child_gather (log : list (Event PixelT)) :
  exists super',
    spec_gather this col row level transaction_id tile_size
                children_in_order (mipmap_canvas this) log
    = (Ok super',
       log ++ map (child_event col row level transaction_id) children_in_order)
    /\ cols super' = (2 * tile_size)%Z /\ rows super' = (2 * tile_size)%Z
    /\ forall X Y,
        (0 <= X < 2 * tile_size)%Z -> (0 <= Y < 2 * tile_size)%Z ->
        (is_transparent_px (pixel_at super' X Y) = false
         <-> (tile_size * i0 <= X < tile_size * i0 + tile_size)%Z
             /\ (tile_size * j0 <= Y < tile_size * j0 + tile_size)%Z).
Proof.
  destruct (spec_gather_ok children_in_order) with (super := mipmap_canvas this)
                                                   (log := log)
    as (super' & log' & Hrun).
  { intros c Hc e. unfold children_in_order in Hc. cbn in Hc.
    destruct Hc as [<- | [<- | [<- | [<- | []]]]];
      rewrite one_child_classify by lia;
      match goal with |- context [if ?b then _ else _] => destruct b end;
      discriminate. }
  destruct (gather_ok_canvas _ _ _ Hrun) as (Hlog & Hc & Hr & Hpx).
  exists super'. subst log'. split; [exact Hrun|]. split; [exact Hc|].
  split; [exact Hr|].
  intros X Y HX HY.
  assert (HXq : exists i x, (0 <= i <= 1)%Z /\ (0 <= x < tile_size)%Z
                            /\ X = (tile_size * i + x)%Z).
  { destruct (Z.ltb_spec X tile_size).
    - exists 0%Z, X. lia.
    - exists 1%Z, (X - tile_size)%Z. lia. }
  assert (HYq : exists j y, (0 <= j <= 1)%Z /\ (0 <= y < tile_size)%Z
                            /\ Y = (tile_size * j + y)%Z).
  { destruct (Z.ltb_spec Y tile_size).
    - exists 0%Z, Y. lia.
    - exists 1%Z, (Y - tile_size)%Z. lia. }
  destruct HXq as (i & x & Hi & Hx & ->). destruct HYq as (j & y & Hj & Hy & ->).
  rewrite (Hpx i j x y Hi Hj Hx Hy), one_child_classify by assumption.
  assert (Ei : i = 0%Z \/ i = 1%Z) by lia.
  assert (Ej : j = 0%Z \/ j = 1%Z) by lia.
  assert (Ei0 : i0 = 0%Z \/ i0 = 1%Z) by lia.
  assert (Ej0 : j0 = 0%Z \/ j0 = 1%Z) by lia.
  pose proof (child_valid x y Hx Hy) as Hvalid.
  pose proof default_transparent as Hdefault.
  destruct Ei as [-> | ->], Ej as [-> | ->], Ei0 as [-> | ->], Ej0 as [-> | ->];
    cbn [Z.eqb Pos.eqb andb];
    first [ rewrite Hvalid; split; [intros _; lia | reflexivity]
          | rewrite Hdefault; split; [discriminate | lia] ].
Qed.

Lemma one_child_tile_pixel (super' : ImageView PixelT) (preblur : bool) (x y : Z) :
  cols super' = (2 * tile_size)%Z -> rows super' = (2 * tile_size)%Z ->
  (forall X Y,
      (0 <= X < 2 * tile_size)%Z -> (0 <= Y < 2 * tile_size)%Z ->
      (is_transparent_px (pixel_at super' X Y) = false
       <-> (tile_size * i0 <= X < tile_size * i0 + tile_size)%Z
           /\ (tile_size * j0 <= Y < tile_size * j0 + tile_size)%Z)) ->
  (0 <= x < tile_size)%Z -> (0 <= y < tile_size)%Z ->
  (is_transparent_px (pixel_at (downsample super' preblur) x y) = false
   <-> (half * i0 <= x < half * i0 + half)%Z
       /\ (half * j0 <= y < half * j0 + half)%Z).
Proof.
  intros Hc Hr Hcanvas Hx Hy.
  assert (Hblock : forall a b, (0 <= a <= 1)%Z -> (0 <= b <= 1)%Z ->
            (is_transparent_px (pixel_at super' (x * 2 + a) (y * 2 + b)) = false
             <-> (half * i0 <= x < half * i0 + half)%Z
                 /\ (half * j0 <= y < half * j0 + half)%Z)).
  { intros a b Ha Hb. rewrite Hcanvas by lia. rewrite even_size.
    assert (Ei0 : i0 = 0%Z \/ i0 = 1%Z) by lia.
    assert (Ej0 : j0 = 0%Z \/ j0 = 1%Z) by lia.
    destruct Ei0 as [-> | ->], Ej0 as [-> | ->]; lia. }
  destruct preblur.
  - rewrite downsample_blur_pixel. unfold edge_extend_constant.
    rewrite Hc, Hr, !clamp_inside by lia.
    pose proof (Hblock 0%Z 0%Z ltac:(lia) ltac:(lia)) as H00.
    pose proof (Hblock 1%Z 0%Z ltac:(lia) ltac:(lia)) as H10.
    pose proof (Hblock 0%Z 1%Z ltac:(lia) ltac:(lia)) as H01.
    pose proof (Hblock 1%Z 1%Z ltac:(lia) ltac:(lia)) as H11.
    repeat rewrite Z.add_0_r in H00.
    repeat rewrite Z.add_0_r in H10.
    repeat rewrite Z.add_0_r in H01.
    set (p00 := pixel_at super' (x * 2) (y * 2)) in *.
    set (p10 := pixel_at super' (x * 2 + 1) (y * 2)) in *.
    set (p01 := pixel_at super' (x * 2) (y * 2 + 1)) in *.
    set (p11 := pixel_at super' (x * 2 + 1) (y * 2 + 1)) in *.
    set (Q := (half * i0 <= x < half * i0 + half)%Z
              /\ (half * j0 <= y < half * j0 + half)%Z) in *.
    split.
    + intros Hv.
      destruct (is_transparent_px p00) eqn:E00; [|apply H00; reflexivity].
      exfalso.
      assert (NQ : ~ Q) by (intros HQ; apply H00 in HQ; discriminate).
      assert (E10 : is_transparent_px p10 = true)
        by (apply not_false_is_true; intros E; apply NQ, H10, E).
      assert (E01 : is_transparent_px p01 = true)
        by (apply not_false_is_true; intros E; apply NQ, H01, E).
      assert (E11 : is_transparent_px p11 = true)
        by (apply not_false_is_true; intros E; apply NQ, H11, E).
      unfold blend in Hv. rewrite blend_transparent in Hv; [discriminate| |];
        apply blend_transparent; assumption.
    + intros HQ. unfold blend.
      apply blend_valid; apply blend_valid;
        first [apply H00 | apply H10 | apply H01 | apply H11]; exact HQ.
  - rewrite downsample_plain_pixel.
    pose proof (Hblock 0%Z 0%Z ltac:(lia) ltac:(lia)) as H00.
    repeat rewrite Z.add_0_r in H00. exact H00.
Qed.

(** C7: with exactly one child present, every pixel of it valid, and the
    other three reads reporting not-found, the tile that is written has
    valid pixels exactly in the quadrant of the present child, for both
    settings of [preblur] (the tile size being even). *)
Theorem one_child_partial_coverage (preblur : bool) (log : list (Event PixelT)) :
  exists new_tile,
    generate_mipmap_tile this col row level transaction_id preblur log
    = (write_update (m_platefile this) new_tile col row level transaction_id,
       log ++ map (child_event col row level transaction_id) children_in_order
           ++ [EvWrite new_tile col row level transaction_id])
    /\ cols new_tile = tile_size /\ rows new_tile = tile_size
    /\ forall x y,
        (0 <= x < tile_size)%Z -> (0 <= y < tile_size)%Z ->
        (is_transparent_px (pixel_at new_tile x y) = false
         <-> (half * i0 <= x < half * i0 + half)%Z
             /\ (half * j0 <= y < half * j0 + half)%Z).
Proof.
  destruct (one_child_gather log) as (super' & Hrun & Hc & Hr & Hcanvas).
  destruct (downsample_size super' preblur tile_size ltac:(lia) Hc Hr)
    as [Hnc Hnr].
  pose proof (one_child_tile_pixel super' preblur) as Hpx.
  exists (downsample super' preblur).
  split; [|split; [exact Hnc | split; [exact Hnr|]]].
  - rewrite generate_mipmap_tile_run, Hrun. cbv zeta.
    rewrite (is_transparent_false (downsample super' preblur)
                                  (half * i0) (half * j0)).
    + rewrite <- app_assoc. reflexivity.
    + rewrite Hnc. nia.
    + rewrite Hnr. nia.
    + apply Hpx; try assumption; nia.
  - intros x y Hx Hy. apply Hpx; assumption.
Qed.

End PartialCoverage.

End MipmapFacts.

(** *** The mipmap step on the example stores *)

Lemma MaskPixelLaws : @PixelLaws bool Examples.MaskPixel.
Proof.
  split.
  - reflexivity.
  - intros k a b Ha Hb. cbn in *. destruct a, b; try discriminate. reflexivity.
  - intros a b Ha Hb. cbn in *. destruct a, b; try discriminate. reflexivity.
Qed.

(** No child: four reads, no write. *)
Example mipmap_all_absent :
  @generate_mipmap_tile bool Examples.MaskPixel
    (Examples.manager (Examples.empty_platefile 2)) 0 0 0 7%Z true []
  = (Ok tt, [EvRead 0 0 1 7%Z true; EvRead 1 0 1 7%Z true;
             EvRead 0 1 1 7%Z true; EvRead 1 1 1 7%Z true]).
Proof. reflexivity. Qed.

(** One child: four reads, then the one write, at the parent's address. *)
Example mipmap_one_child :
  let run :=
    @generate_mipmap_tile bool Examples.MaskPixel
      (Examples.manager (Examples.one_tile_platefile 2 1 0 1)) 0 0 0 7%Z false [] in
  fst run = Ok tt
  /\ map (fun ev => match ev with
                    | EvRead c r l t e => (false, c, r, l, t)
                    | EvWrite _ c r l t => (true, c, r, l, t)
                    end) (snd run)
     = [ (false, 0, 0, 1, 7); (false, 1, 0, 1, 7); (false, 0, 1, 1, 7);
         (false, 1, 1, 1, 7); (true, 0, 0, 0, 7) ]%Z.
Proof. split; reflexivity. Qed.

(** A failing store: the first read ends the step, nothing is written. *)
Example mipmap_read_failure :
  @generate_mipmap_tile bool Examples.MaskPixel
    (Examples.manager (Examples.broken_platefile 2)) 0 0 0 7%Z true []
  = (Throw (OtherErr "IOErr"), [EvRead 0 0 1 7%Z true]).
Proof. reflexivity. Qed.

Lemma one_child_partial_coverage_witness :
  let this := Examples.manager (Examples.one_tile_platefile 2 1 0 1) in
  exists new_tile,
    @generate_mipmap_tile bool Examples.MaskPixel this 0 0 0 7%Z true []
    = (Ok tt,
       [EvRead 0 0 1 7%Z true; EvRead 1 0 1 7%Z true;
        EvRead 0 1 1 7%Z true; EvRead 1 1 1 7%Z true;
        EvWrite new_tile 0 0 0 7%Z])
    /\ cols new_tile = 2%Z /\ rows new_tile = 2%Z
    /\ pixel_at new_tile 1 0 = true
    /\ pixel_at new_tile 0 0 = false
    /\ pixel_at new_tile 0 1 = false
    /\ pixel_at new_tile 1 1 = false.
Proof.
  intros this.
  assert (Hothers : forall c, In c (@children_in_order) -> c <> (1, 0)%Z ->
            @child_read bool this 0 0 0 7%Z c = Throw TileNotFoundErr).
  { intros c Hc Hne. unfold children_in_order in Hc. cbn in Hc.
    destruct Hc as [<- | [<- | [<- | [<- | []]]]];
      try reflexivity. exfalso. apply Hne. reflexivity. }
  destruct (@one_child_partial_coverage bool Examples.MaskPixel this 0 0 0 7%Z
              MaskPixelLaws 1 1 0 (Examples.solid 2)
              ltac:(lia) eq_refl ltac:(lia) ltac:(lia) eq_refl
              (fun _ _ _ _ => eq_refl) Hothers true [])
    as (new_tile & Hrun & Hc & Hr & Hpx).
  exists new_tile. split; [exact Hrun|]. split; [exact Hc|]. split; [exact Hr|].
  cbn in Hpx.
  assert (H10 := Hpx 1%Z 0%Z ltac:(lia) ltac:(lia)).
  assert (H00 := Hpx 0%Z 0%Z ltac:(lia) ltac:(lia)).
  assert (H01 := Hpx 0%Z 1%Z ltac:(lia) ltac:(lia)).
  assert (H11 := Hpx 1%Z 1%Z ltac:(lia) ltac:(lia)).
  repeat split.
  - destruct (pixel_at new_tile 1 0); [reflexivity|].
    exfalso. assert (E : negb false = false) by (apply H10; lia). discriminate.
  - destruct (pixel_at new_tile 0 0); [|reflexivity].
    exfalso. apply proj1 in H00. specialize (H00 eq_refl). lia.
  - destruct (pixel_at new_tile 0 1); [|reflexivity].
    exfalso. apply proj1 in H01. specialize (H01 eq_refl). lia.
  - destruct (pixel_at new_tile 1 1); [|reflexivity].
    exfalso. apply proj1 in H11. specialize (H11 eq_refl). lia.
Defined.

(** * Further properties of the builder *)

Lemma pow2_lt_mono (n m : Z) : (n < m)%Z -> pow2 n < pow2 m.
Proof.
  intros Hnm. rewrite !pow2_exp. pose proof ln_2_pos as H2.
  apply IZR_lt in Hnm. apply exp_increasing. nra.
Qed.

Lemma pow2_lt_inv (n m : Z) : pow2 n < pow2 m -> (n < m)%Z.
Proof.
  intros Hlt. destruct (Z_lt_le_dec n m) as [Hnm | Hmn]; [exact Hnm|].
  pose proof (pow2_le_mono m n Hmn). lra.
Qed.

(** One level down the pyramid halves the pixel spacing, in x and in y. *)
Theorem georeference_level_halves
        {PixelT : Type} (this : PolarStereoPlateManager PixelT)
        (level : Z) (north_pole : bool) (d : Datum) :
  0 < semi_major_axis d ->
  m00 (transform (georeference this (level + 1) north_pole d))
  = m00 (transform (georeference this level north_pole d)) / 2
  /\ m11 (transform (georeference this (level + 1) north_pole d))
     = m11 (transform (georeference this level north_pole d)) / 2.
Proof.
  intros HR. pose proof (pow2_pos level) as Hp.
  rewrite !georeference_spacing, !georeference_spacing_y by exact HR.
  rewrite pow2_succ. split; field; lra.
Qed.

Lemma georeference_level_halves_witness :
  let this := Examples.manager (Examples.empty_platefile 256) in
  m00 (transform (georeference this (4 + 1) false (Examples.sphere 128)))
  = m00 (transform (georeference this 4 false (Examples.sphere 128))) / 2.
Proof.
  intros this.
  exact (proj1 (georeference_level_halves this 4 false (Examples.sphere 128)
                  ltac:(simpl; lra))).
Defined.

(** At every level the grid of [256 * 2^level] pixels a side spans the
    projected square from [(-R, +R)] to [(+R, -R)]: the affine transform
    sends pixel [(0, 0)] to the first corner and pixel [(N, N)] to the
    second. *)
Theorem georeference_extent
        {PixelT : Type} (this : PolarStereoPlateManager PixelT)
        (level : Z) (north_pole : bool) (d : Datum) :
  0 < semi_major_axis d ->
  let g := transform (georeference this level north_pole d) in
  let N := 256 * pow2 level in
  m00 g * 0 + m01 g * 0 + m02 g = - semi_major_axis d
  /\ m10 g * 0 + m11 g * 0 + m12 g = semi_major_axis d
  /\ m00 g * N + m01 g * N + m02 g = semi_major_axis d
  /\ m10 g * N + m11 g * N + m12 g = - semi_major_axis d.
Proof.
  intros HR g N. pose proof (pow2_pos level) as Hp.
  assert (H00 : m00 g = 2 * semi_major_axis d / (256 * pow2 level))
    by (apply georeference_spacing; exact HR).
  assert (H11 : m11 g = - (2 * semi_major_axis d / (256 * pow2 level)))
    by (apply georeference_spacing_y; exact HR).
  assert (H01 : m01 g = 0) by reflexivity.
  assert (H10 : m10 g = 0) by reflexivity.
  assert (H02 : m02 g = - semi_major_axis d) by reflexivity.
  assert (H12 : m12 g = semi_major_axis d) by reflexivity.
  rewrite H00, H11, H01, H10, H02, H12. unfold N.
  repeat split; field; lra.
Qed.

Lemma georeference_extent_witness :
  let g := transform (georeference
                        (Examples.manager (Examples.empty_platefile 256))
                        0 true (Examples.sphere 128)) in
  m00 g * (256 * pow2 0) + m01 g * (256 * pow2 0) + m02 g = 128.
Proof.
  intros g.
  destruct (georeference_extent
              (Examples.manager (Examples.empty_platefile 256))
              0 true (Examples.sphere 128) ltac:(simpl; lra))
    as (_ & _ & Hx & _).
  exact Hx.
Defined.

(** A deeper level has a strictly smaller pixel spacing, so the spacing of a
    descriptor determines its level. *)
Theorem georeference_spacing_orders_levels
        {PixelT : Type} (this : PolarStereoPlateManager PixelT)
        (level level' : Z) (north_pole north_pole' : bool) (d : Datum) :
  0 < semi_major_axis d ->
  ((level < level')%Z
   <-> m00 (transform (georeference this level' north_pole' d))
       < m00 (transform (georeference this level north_pole d)))
  /\ (m00 (transform (georeference this level' north_pole' d))
      = m00 (transform (georeference this level north_pole d))
      -> level' = level).
Proof.
  intros HR.
  rewrite !georeference_spacing by exact HR.
  pose proof (pow2_pos level) as Hp. pose proof (pow2_pos level') as Hp'.
  assert (Hiff : (level < level')%Z
                 <-> 2 * semi_major_axis d / (256 * pow2 level')
                     < 2 * semi_major_axis d / (256 * pow2 level)).
  { split.
    - intros Hlt. apply pow2_lt_mono in Hlt.
      apply Rmult_lt_compat_l; [lra|].
      apply Rinv_0_lt_contravar; lra.
    - intros Hlt. apply pow2_lt_inv.
      apply Rmult_lt_reg_l in Hlt; [|lra].
      destruct (Rlt_dec (pow2 level) (pow2 level')) as [Y | N]; [exact Y|].
      exfalso.
      assert (Hle : / (256 * pow2 level) <= / (256 * pow2 level'))
        by (apply Rinv_le_contravar; lra).
      lra. }
  split; [exact Hiff|].
  intros E. unfold Rdiv in E.
  apply Rmult_eq_reg_l in E; [|lra].
  apply Rinv_eq_reg in E.
  apply Rmult_eq_reg_l in E; [|lra].
  destruct (Z.lt_trichotomy level' level) as [Hlt | [Heq | Hgt]]; [|exact Heq|].
  - apply pow2_lt_mono in Hlt. lra.
  - apply pow2_lt_mono in Hgt. lra.
Qed.

Lemma georeference_spacing_orders_levels_witness :
  let this := Examples.manager (Examples.empty_platefile 256) in
  m00 (transform (georeference this 3 true (Examples.sphere 128)))
  < m00 (transform (georeference this 2 false (Examples.sphere 128))).
Proof.
  intros this.
  apply (proj1 (georeference_spacing_orders_levels
                  this 2 3 false true (Examples.sphere 128)
                  ltac:(simpl; lra))).
  lia.
Defined.

(** * Further properties of the selector *)

Lemma ceil_log2_le_iff (x : R) (n : Z) :
  0 < x -> ((ceil (log2 x) <= n)%Z <-> x <= pow2 n).
Proof.
  intros Hx. split.
  - intros Hle. apply Rle_trans with (pow2 (ceil (log2 x))).
    + apply pow2_ceil_log2. exact Hx.
    + apply pow2_le_mono. exact Hle.
  - apply ceil_log2_least. exact Hx.
Qed.

(** The five samples of a non-empty image are pixels of the image. *)
Theorem test_points_in_image
        {PixelT : Type} (image : ImageView PixelT) :
  (0 < cols image)%Z -> (0 < rows image)%Z ->
  forall p, In p (test_points image) ->
    exists x y : Z,
      p = (IZR x, IZR y)
      /\ (0 <= x < cols image)%Z /\ (0 <= y < rows image)%Z.
Proof.
  intros Hc Hr p Hp.
  assert (Q : forall a k d, (0 < a)%Z -> (0 < k < d)%Z ->
                (0 <= Z.quot (a * k) d < a)%Z).
  { intros a k d Ha Hk. split.
    - apply Z.quot_pos; nia.
    - apply Z.quot_lt_upper_bound; nia. }
  assert (Q1 : forall a d, (0 < a)%Z -> (1 < d)%Z -> (0 <= Z.quot a d < a)%Z).
  { intros a d Ha Hd. split.
    - apply Z.quot_pos; lia.
    - apply Z.quot_lt_upper_bound; nia. }
  unfold test_points in Hp. cbn [In] in Hp.
  destruct Hp as [<- | [<- | [<- | [<- | [<- | []]]]]];
    eexists; eexists; (split; [reflexivity|]); split;
    first [ apply Q1; lia | apply Q; lia ].
Qed.

Lemma test_points_in_image_witness :
  exists x y : Z,
    (IZR (Z.quot 8 2), IZR (Z.quot (8 * 3) 4)) = (IZR x, IZR y)
    /\ (0 <= x < 8)%Z /\ (0 <= y < 8)%Z.
Proof.
  exact (test_points_in_image (Examples.solid 8) ltac:(simpl; lia)
                              ltac:(simpl; lia)
                              (IZR (Z.quot 8 2), IZR (Z.quot (8 * 3) 4))
                              ltac:(simpl; tauto)).
Defined.

(** On an image of at most one pixel (an empty one too) the five samples all
    are pixel [(0, 0)], and the pole is north exactly when that pixel lies
    north of the equator. *)
Theorem degenerate_image_vote
        {PixelT : Type} {GM : GeoMath}
        (georef : GeoReference) (image : ImageView PixelT) :
  (0 <= cols image <= 1)%Z -> (0 <= rows image <= 1)%Z ->
  test_points image = repeat (0, 0) 5
  /\ (is_north_of georef image = true
      <-> 0 < snd (pixel_to_lonlat georef (0, 0))).
Proof.
  intros Hc Hr.
  assert (Hpts : test_points image = repeat (0, 0) 5).
  { unfold test_points.
    assert (Ec : cols image = 0%Z \/ cols image = 1%Z) by lia.
    assert (Er : rows image = 0%Z \/ rows image = 1%Z) by lia.
    destruct Ec as [-> | ->], Er as [-> | ->]; reflexivity. }
  split; [exact Hpts|].
  unfold is_north_of, count_north. rewrite Hpts. cbn [repeat fold_left].
  destruct (Rlt_dec 0 (snd (pixel_to_lonlat georef (0, 0)))) as [Y | N].
  - split; [intros _; exact Y | intros _; reflexivity].
  - split; [intros E; discriminate | intros Y; contradiction].
Qed.

Lemma degenerate_image_vote_witness :
  @is_north_of bool Examples.PlaneGeoMath
               (Examples.source_georef 128 (-30) 1) (Examples.solid 0) = true
  <-> 0 < - 30.
Proof.
  exact (proj2 (@degenerate_image_vote bool Examples.PlaneGeoMath
                  (Examples.source_georef 128 (-30) 1) (Examples.solid 0)
                  ltac:(simpl; lia) ltac:(simpl; lia))).
Defined.

(** A higher requested resolution never gives a coarser level. *)
Theorem fit_level_monotone
        (georef : GeoReference) (r1 r2 : R) (l1 l2 : Z) :
  0 < semi_major_axis (datum georef) ->
  0 < r1 <= r2 ->
  fit_level georef (Finite r1) = Ok l1 ->
  fit_level georef (Finite r2) = Ok l2 ->
  (l1 <= l2)%Z.
Proof.
  intros HR [H1 H12] E1 E2. cbn [fit_level] in E1, E2.
  unfold numeric_cast_int in E1, E2.
  destruct ((INT_MIN <=? _) && (_ <=? INT_MAX))%Z in E1; [|discriminate].
  destruct ((INT_MIN <=? _) && (_ <=? INT_MAX))%Z in E2; [|discriminate].
  injection E1 as <-. injection E2 as <-.
  unfold level_argument.
  set (k := 2 * semi_major_axis (datum georef) / 256).
  assert (Hk : 0 < k) by (unfold k; lra).
  replace (r1 * 2 * semi_major_axis (datum georef) / 256) with (r1 * k)
    by (unfold k; field).
  replace (r2 * 2 * semi_major_axis (datum georef) / 256) with (r2 * k)
    by (unfold k; field).
  apply ceil_log2_le_iff; [nra|].
  apply Rle_trans with (r2 * k); [nra|].
  apply pow2_ceil_log2. nra.
Qed.

Lemma fit_level_monotone_witness :
  fit_level (Examples.source_georef 128 45 1) (Finite 1) = Ok 0%Z
  /\ fit_level (Examples.source_georef 128 45 1) (Finite 2) = Ok 1%Z
  /\ (0 <= 1)%Z.
Proof.
  assert (E1 : fit_level (Examples.source_georef 128 45 1) (Finite 1) = Ok 0%Z).
  { cbn [fit_level]. unfold level_argument. simpl.
    replace (1 * 2 * 128 / 256) with (pow2 0) by (rewrite pow2_0; field).
    rewrite log2_pow2, ceil_IZR. reflexivity. }
  assert (E2 : fit_level (Examples.source_georef 128 45 1) (Finite 2) = Ok 1%Z).
  { cbn [fit_level]. unfold level_argument. simpl.
    replace (2 * 2 * 128 / 256) with (pow2 1) by (rewrite pow2_1; field).
    rewrite log2_pow2, ceil_IZR. reflexivity. }
  split; [exact E1|]. split; [exact E2|].
  exact (fit_level_monotone (Examples.source_georef 128 45 1) 1 2 0 1
           ltac:(simpl; lra) ltac:(lra) E1 E2).
Defined.

Lemma plane_zero_step_spacing (t : GeoTransform) (p : Vector2) :
  m00 (transform (src_georef t)) = 0 ->
  @local_spacing Examples.PlaneGeoMath t p = 0.
Proof.
  intros Hs. unfold local_spacing, norm_2, vsub, vadd.
  cbn [forward Examples.PlaneGeoMath fst snd]. rewrite Hs.
  replace ((0 * (fst p + 1) - 0 * fst p) * (0 * (fst p + 1) - 0 * fst p)
           + (0 * (snd p + 0) - 0 * snd p) * (0 * (snd p + 0) - 0 * snd p))
    with 0 by ring.
  replace ((0 * (fst p + 0) - 0 * fst p) * (0 * (fst p + 0) - 0 * fst p)
           + (0 * (snd p + 1) - 0 * snd p) * (0 * (snd p + 1) - 0 * snd p))
    with 0 by ring.
  rewrite sqrt_0. apply Rmin_left. lra.
Qed.

(** The selector fails in one way only, with [bad_numeric_cast]; it does so
    whenever a unit pixel step at one of the samples does not move in the
    target plane. *)
Theorem transform_image_failure
        {PixelT : Type} {GM : GeoMath} {RS : Resampler PixelT}
        (this : PolarStereoPlateManager PixelT)
        (georef : GeoReference) (image : ImageView PixelT) :
  (forall e, transform_image this georef image = Throw e -> e = bad_numeric_cast)
  /\ ((exists p,
         In p (test_points image)
         /\ local_spacing (resolution_geotx georef (is_north_of georef image)) p
            = 0) ->
      transform_image this georef image = Throw bad_numeric_cast).
Proof.
  split.
  - intros e He. unfold transform_image in He.
    destruct (requested_pixels_per_meters georef _ _) as [r|] in He;
      cbn [fit_level] in He.
    + unfold numeric_cast_int in He.
      destruct ((INT_MIN <=? _) && (_ <=? INT_MAX))%Z in He;
        [discriminate | injection He as <-; reflexivity].
    + injection He as <-. reflexivity.
  - apply transform_image_zero_spacing_throws.
Qed.

Example transform_image_still_source :
  @transform_image bool Examples.PlaneGeoMath Examples.KeepResampler
    (Examples.manager (Examples.empty_platefile 256))
    (Examples.source_georef 128 45 0) (Examples.solid 8)
  = Throw bad_numeric_cast.
Proof.
  apply transform_image_zero_spacing_throws.
  exists (IZR (Z.quot 8 2), IZR (Z.quot 8 2)). split; [left; reflexivity|].
  apply plane_zero_step_spacing. reflexivity.
Qed.

(** * Further properties of the mipmap step *)

Section MipmapPixels.
Context {PixelT : Type} {PX : Pixel PixelT}.
Variable this : PolarStereoPlateManager PixelT.
Variables col row level : Z.
Variable transaction_id : TransactionOrNeg.

Let tile_size := default_tile_size (m_platefile this).
Let reads : list (Event PixelT) :=
  map (child_event col row level transaction_id) children_in_order.

Lemma write_not_among_reads (children : list (Z * Z))
      (tile : ImageView PixelT) (c r l : Z) (t : TransactionOrNeg) :
  ~ In (EvWrite tile c r l t)
       (map (child_event col row level transaction_id) children).
Proof.
  intros Hin. apply in_map_iff in Hin. destruct Hin as (ch & E & _).
  discriminate.
Qed.

(** Whatever the step writes is a tile of the store's tile size, not wholly
    transparent, addressed at the parent under the given transaction. *)
Theorem written_tile_shape (preblur : bool) (log log' : list (Event PixelT))
        (o : Outcome unit) :
  (0 < tile_size)%Z ->
  generate_mipmap_tile this col row level transaction_id preblur log = (o, log') ->
  forall tile c r l t,
    In (EvWrite tile c r l t) log' ->
    In (EvWrite tile c r l t) log
    \/ (cols tile = tile_size /\ rows tile = tile_size
        /\ is_transparent tile = false
        /\ c = col /\ r = row /\ l = level /\ t = transaction_id).
Proof.
  intros Hts Hgen tile c r l t Hin.
  rewrite generate_mipmap_tile_run in Hgen. fold tile_size in Hgen.
  destruct (spec_gather this col row level transaction_id tile_size
                        children_in_order (mipmap_canvas this) log)
    as [[super | e] log1] eqn:Hrun.
  - destruct (gather_ok_canvas this col row level transaction_id _ _ _ Hrun)
      as (Hlog & Hc & Hr & _).
    fold tile_size in Hc, Hr. cbv zeta in Hgen.
    destruct (is_transparent (downsample super preblur)) eqn:Ht.
    + injection Hgen as _ <-. subst log1. apply in_app_or in Hin.
      destruct Hin as [Hin | Hin]; [left; exact Hin|].
      exfalso. exact (write_not_among_reads _ _ _ _ _ _ Hin).
    + injection Hgen as _ <-. subst log1. rewrite <- app_assoc in Hin.
      apply in_app_or in Hin. destruct Hin as [Hin | Hin]; [left; exact Hin|].
      apply in_app_or in Hin. destruct Hin as [Hin | Hin].
      * exfalso. exact (write_not_among_reads _ _ _ _ _ _ Hin).
      * destruct Hin as [E | []]. injection E as <- <- <- <- <-. right.
        destruct (downsample_size this super preblur tile_size Hts Hc Hr) as [Hnc Hnr].
        repeat split; assumption.
  - injection Hgen as _ <-.
    destruct (spec_gather_log this col row level transaction_id _ _ _ _ _ Hrun)
      as (n & _ & Hlog & _).
    subst log1. apply in_app_or in Hin.
    destruct Hin as [Hin | Hin]; [left; exact Hin|].
    exfalso. exact (write_not_among_reads _ _ _ _ _ _ Hin).
Qed.

Section EvenTiles.
Variable half : Z.
Hypothesis half_pos : (0 < half)%Z.
Hypothesis even_size : tile_size = (2 * half)%Z.

Let cp := child_pixel this col row level transaction_id.

Lemma canvas_child_pixel (log log' : list (Event PixelT))
      (super : ImageView PixelT) (i j a b : Z) :
  spec_gather this col row level transaction_id tile_size
              children_in_order (mipmap_canvas this) log = (Ok super, log') ->
  (0 <= i <= 1)%Z -> (0 <= j <= 1)%Z ->
  (0 <= a < tile_size)%Z -> (0 <= b < tile_size)%Z ->
  pixel_at super (tile_size * i + a) (tile_size * j + b) = cp i j a b.
Proof.
  intros Hrun Hi Hj Ha Hb.
  destruct (gather_ok_canvas this col row level transaction_id _ _ _ Hrun)
    as (_ & _ & _ & Hpx).
  apply Hpx; assumption.
Qed.

Lemma tile_pixel_formula (log log' : list (Event PixelT))
      (super : ImageView PixelT) (i j u v : Z) :
  spec_gather this col row level transaction_id tile_size
              children_in_order (mipmap_canvas this) log = (Ok super, log') ->
  (0 <= i <= 1)%Z -> (0 <= j <= 1)%Z ->
  (0 <= u < half)%Z -> (0 <= v < half)%Z ->
  pixel_at (downsample super false) (half * i + u) (half * j + v)
  = cp i j (2 * u) (2 * v)
  /\ pixel_at (downsample super true) (half * i + u) (half * j + v)
     = blend (blend (cp i j (2 * u) (2 * v)) (cp i j (2 * u + 1) (2 * v)))
             (blend (cp i j (2 * u) (2 * v + 1))
                    (cp i j (2 * u + 1) (2 * v + 1))).
Proof.
  intros Hrun Hi Hj Hu Hv.
  destruct (gather_ok_canvas this col row level transaction_id _ _ _ Hrun)
    as (_ & Hc & Hr & _).
  fold tile_size in Hc, Hr.
  assert (Hcanvas : forall a b, (0 <= a <= 1)%Z -> (0 <= b <= 1)%Z ->
            pixel_at super ((half * i + u) * 2 + a) ((half * j + v) * 2 + b)
            = cp i j (2 * u + a) (2 * v + b)).
  { intros a b Ha Hb.
    replace ((half * i + u) * 2 + a)%Z with (tile_size * i + (2 * u + a))%Z
      by (rewrite even_size; ring).
    replace ((half * j + v) * 2 + b)%Z with (tile_size * j + (2 * v + b))%Z
      by (rewrite even_size; ring).
    apply (canvas_child_pixel log log'); try assumption; lia. }
  assert (Hbound : forall w k, (0 <= k <= 1)%Z -> (0 <= w < half)%Z ->
            (0 <= (half * k + w) * 2 /\ (half * k + w) * 2 + 1 <= 2 * tile_size - 1)%Z)
    by (intros w k Hk Hw; rewrite even_size; nia).
  pose proof (Hbound u i Hi Hu) as Bx. pose proof (Hbound v j Hj Hv) as By.
  split.
  - rewrite downsample_plain_pixel.
    pose proof (Hcanvas 0%Z 0%Z ltac:(lia) ltac:(lia)) as H00.
    repeat rewrite Z.add_0_r in H00. exact H00.
  - rewrite downsample_blur_pixel. unfold edge_extend_constant.
    rewrite Hc, Hr, !(clamp_inside this) by lia.
    pose proof (Hcanvas 0%Z 0%Z ltac:(lia) ltac:(lia)) as H00.
    pose proof (Hcanvas 1%Z 0%Z ltac:(lia) ltac:(lia)) as H10.
    pose proof (Hcanvas 0%Z 1%Z ltac:(lia) ltac:(lia)) as H01.
    pose proof (Hcanvas 1%Z 1%Z ltac:(lia) ltac:(lia)) as H11.
    repeat rewrite Z.add_0_r in H00.
    repeat rewrite Z.add_0_r in H10.
    repeat rewrite Z.add_0_r in H01.
    rewrite H00, H10, H01, H11. reflexivity.
Qed.

(** With an even tile size each pixel of the parent comes from one child
    only: without [preblur] it is a copy of the child's pixel at the doubled
    coordinates, with [preblur] it is the box mean of the child's 2 x 2 block
    there; no block spans two children and the edge extension is never
    reached. *)
Theorem parent_pixel_from_one_child (log log' : list (Event PixelT))
        (super : ImageView PixelT) (i j u v : Z) :
  gather_children this col row level transaction_id tile_size
                  (mipmap_canvas this) log = (Ok super, log') ->
  (0 <= i <= 1)%Z -> (0 <= j <= 1)%Z ->
  (0 <= u < half)%Z -> (0 <= v < half)%Z ->
  pixel_at (downsample super false) (half * i + u) (half * j + v)
  = child_pixel this col row level transaction_id i j (2 * u) (2 * v)
  /\ pixel_at (downsample super true) (half * i + u) (half * j + v)
     = blend (blend (child_pixel this col row level transaction_id i j
                                 (2 * u) (2 * v))
                    (child_pixel this col row level transaction_id i j
                                 (2 * u + 1) (2 * v)))
             (blend (child_pixel this col row level transaction_id i j
                                 (2 * u) (2 * v + 1))
                    (child_pixel this col row level transaction_id i j
                                 (2 * u + 1) (2 * v + 1))).
Proof.
  intros Hrun.
  pose proof (gather_children_refines this col row level transaction_id
                                      (mipmap_canvas this) log) as E.
  fold tile_size in E. rewrite E in Hrun.
  apply (tile_pixel_formula log log'). exact Hrun.
Qed.

End EvenTiles.

End MipmapPixels.

Section MipmapCoverage.
Context {PixelT : Type} {PX : Pixel PixelT}.
Variable this : PolarStereoPlateManager PixelT.
Variables col row level : Z.
Variable transaction_id : TransactionOrNeg.
Variable half : Z.

Let tile_size := default_tile_size (m_platefile this).
Let reads : list (Event PixelT) :=
  map (child_event col row level transaction_id) children_in_order.

Hypothesis half_pos : (0 < half)%Z.
Hypothesis even_size : tile_size = (2 * half)%Z.

Lemma split_coordinate (X : Z) :
  (0 <= X < tile_size)%Z ->
  exists i u, (0 <= i <= 1)%Z /\ (0 <= u < half)%Z /\ X = (half * i + u)%Z.
Proof.
  intros HX. rewrite even_size in HX. destruct (Z.ltb_spec X half).
  - exists 0%Z, X. lia.
  - exists 1%Z, (X - half)%Z. lia.
Qed.

Lemma gather_without_failure (log : list (Event PixelT)) :
  (forall c, In c children_in_order ->
     forall e, child_read this col row level transaction_id c = Throw e ->
               e = TileNotFoundErr) ->
  exists super,
    spec_gather this col row level transaction_id tile_size
                children_in_order (mipmap_canvas this) log
    = (Ok super, log ++ reads)
    /\ cols super = (2 * tile_size)%Z /\ rows super = (2 * tile_size)%Z.
Proof.
  intros Hsafe.
  destruct (spec_gather_ok this col row level transaction_id children_in_order)
    with (super := mipmap_canvas this) (log := log) as (super & log' & Hrun).
  { intros c Hc e Hcl. unfold classify in Hcl.
    destruct (child_read this col row level transaction_id c) as [t | e0] eqn:Hr;
      [discriminate|].
    rewrite (Hsafe c Hc e0 Hr) in Hcl. discriminate. }
  fold tile_size in Hrun.
  destruct (gather_ok_canvas this col row level transaction_id _ _ _ Hrun)
    as (Hlog & Hc & Hr & _).
  exists super. subst log'. split; [exact Hrun|]. split; [exact Hc | exact Hr].
Qed.

(** The quadrant of a child that was not found stays without data in the
    parent, with and without [preblur], whatever the other children hold. *)
Theorem absent_quadrant_stays_transparent {PL : PixelLaws}
        (preblur : bool) (log log' : list (Event PixelT))
        (super : ImageView PixelT) (i j u v : Z) :
  gather_children this col row level transaction_id tile_size
                  (mipmap_canvas this) log = (Ok super, log') ->
  child_read this col row level transaction_id (i, j) = Throw TileNotFoundErr ->
  (0 <= i <= 1)%Z -> (0 <= j <= 1)%Z ->
  (0 <= u < half)%Z -> (0 <= v < half)%Z ->
  is_transparent_px
    (pixel_at (downsample super preblur) (half * i + u) (half * j + v)) = true.
Proof.
  intros Hrun Habsent Hi Hj Hu Hv.
  pose proof (gather_children_refines this col row level transaction_id
                                      (mipmap_canvas this) log) as E.
  fold tile_size in E. rewrite E in Hrun.
  destruct (tile_pixel_formula this col row level transaction_id half
              half_pos even_size log log' super i j u v Hrun Hi Hj Hu Hv)
    as [Hplain Hblur].
  assert (Hcp : forall a b,
            child_pixel this col row level transaction_id i j a b
            = pixel_default).
  { intros a b. unfold child_pixel. rewrite Habsent. reflexivity. }
  destruct preblur.
  - rewrite Hblur, !Hcp. unfold blend.
    repeat apply blend_transparent; apply default_transparent.
  - rewrite Hplain, Hcp. apply default_transparent.
Qed.

(** One child that was found and is valid throughout is enough for the
    parent to be written, whatever the other children hold, as long as no
    read fails. *)
Theorem valid_child_forces_write {PL : PixelLaws}
        (preblur : bool) (log : list (Event PixelT))
        (i0 j0 : Z) (child : ImageView PixelT) :
  (forall c, In c children_in_order ->
     forall e, child_read this col row level transaction_id c = Throw e ->
               e = TileNotFoundErr) ->
  (0 <= i0 <= 1)%Z -> (0 <= j0 <= 1)%Z ->
  child_read this col row level transaction_id (i0, j0) = Ok child ->
  (forall x y, (0 <= x < tile_size)%Z -> (0 <= y < tile_size)%Z ->
               is_transparent_px (pixel_at child x y) = false) ->
  exists new_tile,
    generate_mipmap_tile this col row level transaction_id preblur log
    = (write_update (m_platefile this) new_tile col row level transaction_id,
       log ++ reads ++ [EvWrite new_tile col row level transaction_id])
    /\ is_transparent_px (pixel_at new_tile (half * i0) (half * j0)) = false.
Proof.
  intros Hsafe Hi0 Hj0 Hpresent Hvalid.
  destruct (gather_without_failure log Hsafe) as (super & Hrun & Hc & Hr).
  destruct (tile_pixel_formula this col row level transaction_id half
              half_pos even_size log _ super i0 j0 0 0 Hrun Hi0 Hj0
              ltac:(lia) ltac:(lia))
    as [Hplain Hblur].
  rewrite !Z.add_0_r in Hplain, Hblur.
  assert (Hcp : forall a b, (0 <= a < tile_size)%Z -> (0 <= b < tile_size)%Z ->
            is_transparent_px
              (child_pixel this col row level transaction_id i0 j0 a b) = false).
  { intros a b Ha Hb. unfold child_pixel. rewrite Hpresent. cbn [classify].
    apply Hvalid; assumption. }
  assert (Hpx : is_transparent_px
                  (pixel_at (downsample super preblur) (half * i0) (half * j0))
                = false).
  { destruct preblur.
    - rewrite Hblur. unfold blend.
      apply blend_valid; apply blend_valid; apply Hcp; lia.
    - rewrite Hplain. apply Hcp; lia. }
  destruct (downsample_size this super preblur tile_size ltac:(lia) Hc Hr)
    as [Hnc Hnr].
  exists (downsample super preblur). split; [|exact Hpx].
  rewrite generate_mipmap_tile_run. fold tile_size. rewrite Hrun. cbv zeta.
  rewrite (is_transparent_false this (downsample super preblur)
                                (half * i0) (half * j0)).
  - rewrite <- app_assoc. reflexivity.
  - rewrite Hnc. nia.
  - rewrite Hnr. nia.
  - exact Hpx.
Qed.

(** Four children of one colour [C] give a parent of that colour: always
    without [preblur], and with it when the box mean of [C] with itself is
    [C]; the parent is written exactly when [C] is no transparent pixel. *)
Theorem constant_field (preblur : bool) (log : list (Event PixelT)) (C : PixelT) :
  (forall c, In c children_in_order ->
     exists tile,
       child_read this col row level transaction_id c = Ok tile
       /\ forall x y, (0 <= x < tile_size)%Z -> (0 <= y < tile_size)%Z ->
                      pixel_at tile x y = C) ->
  (preblur = true -> blend C C = C) ->
  exists new_tile,
    (forall X Y, (0 <= X < tile_size)%Z -> (0 <= Y < tile_size)%Z ->
                 pixel_at new_tile X Y = C)
    /\ cols new_tile = tile_size /\ rows new_tile = tile_size
    /\ generate_mipmap_tile this col row level transaction_id preblur log
       = if is_transparent_px C
         then (Ok tt, log ++ reads)
         else (write_update (m_platefile this) new_tile col row level
                            transaction_id,
               log ++ reads ++ [EvWrite new_tile col row level transaction_id]).
Proof.
  intros Hall Hblend.
  assert (Hsafe : forall c, In c children_in_order ->
            forall e, child_read this col row level transaction_id c = Throw e ->
                      e = TileNotFoundErr).
  { intros c Hc e He. destruct (Hall c Hc) as (t & Ht & _).
    rewrite Ht in He. discriminate. }
  destruct (gather_without_failure log Hsafe) as (super & Hrun & Hc & Hr).
  destruct (downsample_size this super preblur tile_size ltac:(lia) Hc Hr)
    as [Hnc Hnr].
  assert (Hcp : forall i j a b,
            (0 <= i <= 1)%Z -> (0 <= j <= 1)%Z ->
            (0 <= a < tile_size)%Z -> (0 <= b < tile_size)%Z ->
            child_pixel this col row level transaction_id i j a b = C).
  { intros i j a b Hi Hj Ha Hb. unfold child_pixel.
    assert (Hin : In (i, j) children_in_order).
    { assert (Ei : i = 0%Z \/ i = 1%Z) by lia.
      assert (Ej : j = 0%Z \/ j = 1%Z) by lia.
      destruct Ei as [-> | ->], Ej as [-> | ->];
        unfold children_in_order; cbn; tauto. }
    destruct (Hall (i, j) Hin) as (t & Ht & HC).
    rewrite Ht. cbn [classify]. apply HC; assumption. }
  assert (Hpx : forall X Y, (0 <= X < tile_size)%Z -> (0 <= Y < tile_size)%Z ->
            pixel_at (downsample super preblur) X Y = C).
  { intros X Y HX HY.
    destruct (split_coordinate X HX) as (i & u & Hi & Hu & ->).
    destruct (split_coordinate Y HY) as (j & v & Hj & Hv & ->).
    destruct (tile_pixel_formula this col row level transaction_id half
                half_pos even_size log _ super i j u v Hrun Hi Hj Hu Hv)
      as [Hplain Hblur].
    destruct preblur.
    - rewrite Hblur, !Hcp by lia. rewrite !(Hblend eq_refl). reflexivity.
    - rewrite Hplain. apply Hcp; lia. }
  exists (downsample super preblur).
  split; [exact Hpx|]. split; [exact Hnc|]. split; [exact Hnr|].
  rewrite generate_mipmap_tile_run. fold tile_size. rewrite Hrun. cbv zeta.
  destruct (is_transparent_px C) eqn:EC.
  - replace (is_transparent (downsample super preblur)) with true; [reflexivity|].
    symmetry. apply (proj2 (is_transparent_true this _)). intros x y Hx Hy.
    rewrite Hpx by lia. exact EC.
  - rewrite (is_transparent_false this (downsample super preblur) 0 0).
    + rewrite <- app_assoc. reflexivity.
    + lia.
    + lia.
    + rewrite Hpx by lia. exact EC.
Qed.

End MipmapCoverage.

(** *** The further properties on the example stores *)

Lemma one_tile_reads_safe :
  let this := Examples.manager (Examples.one_tile_platefile 2 1 0 1) in
  forall c, In c (@children_in_order) ->
    forall e, @child_read bool this 0 0 0 7%Z c = Throw e -> e = TileNotFoundErr.
Proof.
  intros this c Hc e He. unfold children_in_order in Hc. cbn in Hc.
  destruct Hc as [<- | [<- | [<- | [<- | []]]]]; cbn in He;
    first [discriminate | injection He as <-; reflexivity].
Qed.

Lemma written_tile_shape_witness :
  let this := Examples.manager (Examples.one_tile_platefile 2 1 0 1) in
  let run := @generate_mipmap_tile bool Examples.MaskPixel this 0 0 0 7%Z false [] in
  exists tile,
    In (EvWrite tile 0 0 0 7%Z) (snd run)
    /\ cols tile = 2%Z /\ rows tile = 2%Z.
Proof.
  intros this run.
  assert (Hex : exists tile, In (EvWrite tile 0 0 0 7%Z) (snd run)).
  { eexists. do 4 right. left. reflexivity. }
  destruct Hex as (tile & Hin). exists tile. split; [exact Hin|].
  destruct (@written_tile_shape bool Examples.MaskPixel this 0 0 0 7%Z false
              [] (snd run) (fst run) ltac:(simpl; lia)
              (surjective_pairing run) tile 0%Z 0%Z 0%Z 7%Z Hin)
    as [[] | (Hc & Hr & _)].
  split; assumption.
Defined.

Lemma parent_pixel_from_one_child_witness :
  let this := Examples.manager (Examples.one_tile_platefile 2 1 0 1) in
  exists super log',
    @gather_children bool this 0 0 0 7%Z 2
                     (@mipmap_canvas bool Examples.MaskPixel this) []
    = (Ok super, log')
    /\ pixel_at (@downsample bool Examples.MaskPixel super false) 1 0 = true
    /\ pixel_at (@downsample bool Examples.MaskPixel super false) 0 0 = false.
Proof.
  intros this. eexists. eexists. split; [reflexivity|]. split.
  - exact (proj1 (@parent_pixel_from_one_child bool Examples.MaskPixel
                    this 0 0 0 7%Z 1 ltac:(lia) eq_refl [] _ _ 1 0 0 0
                    eq_refl ltac:(lia) ltac:(lia) ltac:(lia) ltac:(lia))).
  - exact (proj1 (@parent_pixel_from_one_child bool Examples.MaskPixel
                    this 0 0 0 7%Z 1 ltac:(lia) eq_refl [] _ _ 0 0 0 0
                    eq_refl ltac:(lia) ltac:(lia) ltac:(lia) ltac:(lia))).
Defined.

Lemma absent_quadrant_stays_transparent_witness :
  let this := Examples.manager (Examples.one_tile_platefile 2 1 0 1) in
  exists super log',
    @gather_children bool this 0 0 0 7%Z 2
                     (@mipmap_canvas bool Examples.MaskPixel this) []
    = (Ok super, log')
    /\ pixel_at (@downsample bool Examples.MaskPixel super true) 0 1 = false.
Proof.
  intros this. eexists. eexists. split; [reflexivity|].
  apply negb_true_iff.
  exact (@absent_quadrant_stays_transparent bool Examples.MaskPixel
           this 0 0 0 7%Z 1 ltac:(lia) eq_refl MaskPixelLaws true [] _ _
           0 1 0 0 eq_refl eq_refl
           ltac:(lia) ltac:(lia) ltac:(lia) ltac:(lia)).
Defined.

Lemma valid_child_forces_write_witness :
  let this := Examples.manager (Examples.one_tile_platefile 2 1 0 1) in
  exists new_tile,
    @generate_mipmap_tile bool Examples.MaskPixel this 0 0 0 7%Z true []
    = (Ok tt,
       [EvRead 0 0 1 7%Z true; EvRead 1 0 1 7%Z true;
        EvRead 0 1 1 7%Z true; EvRead 1 1 1 7%Z true;
        EvWrite new_tile 0 0 0 7%Z])
    /\ pixel_at new_tile 1 0 = true.
Proof.
  intros this.
  destruct (@valid_child_forces_write bool Examples.MaskPixel
              this 0 0 0 7%Z 1 ltac:(lia) eq_refl MaskPixelLaws true []
              1 0 (Examples.solid 2) one_tile_reads_safe
              ltac:(lia) ltac:(lia) eq_refl (fun _ _ _ _ => eq_refl))
    as (new_tile & Hrun & Hpx).
  exists new_tile. split; [exact Hrun|].
  apply negb_false_iff. exact Hpx.
Defined.

Lemma constant_field_witness :
  let this := Examples.manager (Examples.full_platefile 2) in
  exists new_tile,
    pixel_at new_tile 0 0 = true /\ pixel_at new_tile 1 1 = true
    /\ @generate_mipmap_tile bool Examples.MaskPixel this 0 0 0 7%Z true []
       = (Ok tt,
          [EvRead 0 0 1 7%Z true; EvRead 1 0 1 7%Z true;
           EvRead 0 1 1 7%Z true; EvRead 1 1 1 7%Z true;
           EvWrite new_tile 0 0 0 7%Z]).
Proof.
  intros this.
  destruct (@constant_field bool Examples.MaskPixel this 0 0 0 7%Z 1
              ltac:(lia) eq_refl true [] true
              (fun c _ => ex_intro _ (Examples.solid 2)
                            (conj eq_refl (fun _ _ _ _ => eq_refl)))
              (fun _ => eq_refl))
    as (new_tile & Hpx & _ & _ & Hrun).
  exists new_tile.
  split; [apply Hpx; simpl; lia|]. split; [apply Hpx; simpl; lia|].
  exact Hrun.
Defined.

(** * The selector under rounding *)

Section RoundedFacts.
Context {PixelT : Type} {DA : DoubleArith} {GM : GeoMath} {RS : Resampler PixelT}.
Variables u eta : R.
Hypothesis u_range : 0 <= u < 1.
Hypothesis arith : Rounded.accurate u eta.

Lemma fl_bounds (x : R) : 0 <= x -> (1 - u) * x <= fl x <= (1 + u) * x.
Proof.
  intros Hx. destruct arith as [Hfl _]. specialize (Hfl x).
  rewrite (Rabs_pos_eq x) in Hfl by exact Hx.
  unfold Rabs in Hfl. destruct (Rcase_abs (fl x - x)); lra.
Qed.

Lemma fl_pos (x : R) : 0 < x -> 0 < fl x.
Proof.
  intros Hx. destruct (fl_bounds x) as [Hlo _]; [lra|].
  assert (0 < (1 - u) * x) by (apply Rmult_lt_0_compat; lra). lra.
Qed.

Lemma fl_nonneg (x : R) : 0 <= x -> 0 <= fl x.
Proof.
  intros Hx. destruct (fl_bounds x Hx) as [Hlo _].
  assert (0 <= (1 - u) * x) by (apply Rmult_le_pos; lra). lra.
Qed.

Lemma fl_opp_bound (x : R) : 0 <= x -> - fl (- x) <= (1 + u) * x.
Proof.
  intros Hx. destruct arith as [Hfl _]. specialize (Hfl (- x)).
  rewrite Rabs_Ropp, (Rabs_pos_eq x) in Hfl by exact Hx.
  unfold Rabs in Hfl. destruct (Rcase_abs (fl (- x) - - x)); lra.
Qed.

Lemma rounded_spacing_nonneg (geotx : GeoTransform) (p : Vector2) :
  0 <= Rounded.local_spacing geotx p.
Proof.
  unfold Rounded.local_spacing. cbv zeta.
  apply Rmin_case; unfold Rounded.norm_2; apply fl_nonneg, sqrt_pos.
Qed.

Lemma rounded_requested_fold (geotx : GeoTransform) (pts : list Vector2)
      (seed : R) :
  (forall p, In p pts -> Rounded.local_spacing geotx p <> 0) ->
  fold_left
    (fun requested p =>
       let r := Rounded.i_resolution geotx p in
       if ext_gt r requested then r else requested)
    pts (Finite seed)
  = Finite (fold_left Rmax
              (map (fun p => fl (1 / Rounded.local_spacing geotx p)) pts) seed).
Proof.
  revert seed. induction pts as [|p pts IH]; intros seed Hnz.
  - reflexivity.
  - cbn [fold_left map]. cbv zeta. unfold Rounded.i_resolution, Rounded.one_over.
    destruct (Req_dec_T (Rounded.local_spacing geotx p) 0) as [E | _].
    + exfalso. exact (Hnz p (or_introl eq_refl) E).
    + rewrite ext_gt_Finite. apply IH.
      intros q Hq. apply Hnz. right. exact Hq.
Qed.

Lemma rounded_PlusInf_absorbs (geotx : GeoTransform) (pts : list Vector2) :
  fold_left
    (fun requested p =>
       let r := Rounded.i_resolution geotx p in
       if ext_gt r requested then r else requested)
    pts PlusInf
  = PlusInf.
Proof.
  induction pts as [|p pts IH]; [reflexivity|].
  cbn [fold_left]. cbv zeta.
  replace (ext_gt (Rounded.i_resolution geotx p) PlusInf) with false
    by (destruct (Rounded.i_resolution geotx p); reflexivity).
  exact IH.
Qed.

Lemma rounded_reaches_PlusInf (geotx : GeoTransform) (pts : list Vector2)
      (start : double_ext) :
  (exists p, In p pts /\ Rounded.local_spacing geotx p = 0) ->
  fold_left
    (fun requested p =>
       let r := Rounded.i_resolution geotx p in
       if ext_gt r requested then r else requested)
    pts start
  = PlusInf.
Proof.
  revert start. induction pts as [|q pts IH]; intros start (p & Hin & Hzero).
  - contradiction.
  - cbn [fold_left]. cbv zeta. destruct Hin as [-> | Hin].
    + unfold Rounded.i_resolution, Rounded.one_over.
      destruct (Req_dec_T (Rounded.local_spacing geotx p) 0) as [_ | N];
        [|contradiction].
      destruct start as [r|]; cbn [ext_gt]; apply rounded_PlusInf_absorbs.
    + apply IH. exists p. split; assumption.
Qed.

(** A selector that returns has seen no sample of zero spacing. *)
Lemma rounded_return_spacing_pos
      (this : PolarStereoPlateManager PixelT)
      (georef : GeoReference) (image : ImageView PixelT) (pl : Placement) :
  Rounded.transform_image this georef image = Ok pl ->
  forall p, In p (test_points image) ->
    0 < Rounded.local_spacing
          (resolution_geotx georef (is_north_of georef image)) p.
Proof.
  intros Hret p Hp.
  destruct (Req_dec (Rounded.local_spacing
                       (resolution_geotx georef (is_north_of georef image)) p) 0)
    as [E | N].
  - exfalso. unfold Rounded.transform_image in Hret.
    unfold Rounded.requested_pixels_per_meters in Hret.
    rewrite rounded_reaches_PlusInf in Hret by (exists p; split; assumption).
    discriminate.
  - pose proof (rounded_spacing_nonneg
                  (resolution_geotx georef (is_north_of georef image)) p).
    lra.
Qed.

(** The fitted level covers its argument up to the error of the logarithm. *)
Lemma rounded_level_covers (x : R) :
  0 < x -> x <= pow2 (ceil (Rounded.log2_fl x)) * Rpower 2 eta.
Proof.
  intros Hx. destruct arith as [_ Hlog]. specialize (Hlog x Hx).
  destruct (ceil_spec (Rounded.log2_fl x)) as [_ Hhi].
  pose proof ln_2_pos as H2.
  assert (Hln : ln x <= IZR (ceil (Rounded.log2_fl x)) * ln 2 + eta * ln 2).
  { assert (Hq : log2 x <= IZR (ceil (Rounded.log2_fl x)) + eta) by lra.
    unfold log2 in Hq.
    apply (Rmult_le_compat_r (ln 2)) in Hq; [|lra].
    replace (ln x / ln 2 * ln 2) with (ln x) in Hq by (field; lra).
    lra. }
  rewrite pow2_exp. unfold Rpower. rewrite <- exp_plus.
  rewrite <- (exp_ln x) at 1 by exact Hx.
  destruct Hln as [Hlt | Heq].
  - left. apply exp_increasing. exact Hlt.
  - rewrite Heq. lra.
Qed.

(** The spacing the rounded builder gives at a level, from below and above. *)
Lemma rounded_builder_spacing
      (this : PolarStereoPlateManager PixelT) (level : Z) (north_pole : bool)
      (d : Datum) :
  0 < semi_major_axis d ->
  exists Q,
    0 < Q
    /\ (1 - u) ^ 3 * 256 * pow2 level <= Q * ((1 + u) * (2 * semi_major_axis d))
    /\ m00 (transform (Rounded.georeference this level north_pole d)) * Q
       <= 1 + u
    /\ - m11 (transform (Rounded.georeference this level north_pole d)) * Q
       <= 1 + u.
Proof.
  intros HR. pose proof (pow2_pos level) as HP.
  set (sma := semi_major_axis d) in *.
  set (A := fl (pow2 level)).
  set (B := fl (256 * A)).
  set (D := fl (2 * sma)).
  set (Q := fl (B / D)).
  assert (Hk : 0 < 1 - u) by lra.
  assert (HA : (1 - u) * pow2 level <= A) by (apply fl_bounds; lra).
  assert (HA0 : 0 < A) by (apply fl_pos; exact HP).
  assert (HB : (1 - u) * (256 * A) <= B) by (apply fl_bounds; lra).
  assert (HB0 : 0 < B) by (apply fl_pos; lra).
  assert (HD : D <= (1 + u) * (2 * sma)) by (apply fl_bounds; lra).
  assert (HD0 : 0 < D) by (apply fl_pos; lra).
  assert (HBD : 0 < B / D) by (apply Rdiv_lt_0_compat; assumption).
  assert (HQ : (1 - u) * (B / D) <= Q) by (apply fl_bounds; lra).
  assert (HQ0 : 0 < Q) by (apply fl_pos; exact HBD).
  assert (HQinv : 0 < 1 / Q) by (apply Rdiv_lt_0_compat; lra).
  exists Q. split; [exact HQ0|]. split; [|split].
  - assert (HQD : (1 - u) * B <= Q * D).
    { apply (Rmult_le_compat_r D) in HQ; [|lra].
      replace ((1 - u) * (B / D) * D) with ((1 - u) * B) in HQ by (field; lra).
      exact HQ. }
    assert (HB2 : (1 - u) * ((1 - u) * (256 * ((1 - u) * pow2 level)))
                  <= (1 - u) * B).
    { apply Rmult_le_compat_l; [lra|].
      apply Rle_trans with ((1 - u) * (256 * A)); [|exact HB].
      apply Rmult_le_compat_l; [lra|].
      apply Rmult_le_compat_l; [lra | exact HA]. }
    assert (HQK : Q * D <= Q * ((1 + u) * (2 * sma)))
      by (apply Rmult_le_compat_l; [lra | exact HD]).
    replace ((1 - u) ^ 3 * 256 * pow2 level)
      with ((1 - u) * ((1 - u) * (256 * ((1 - u) * pow2 level)))) by ring.
    lra.
  - change (m00 (transform (Rounded.georeference this level north_pole d)))
      with (fl (1 / Q)).
    destruct (fl_bounds (1 / Q)) as [_ Hup]; [lra|].
    apply (Rmult_le_compat_r Q) in Hup; [|lra].
    replace ((1 + u) * (1 / Q) * Q) with (1 + u) in Hup by (field; lra).
    exact Hup.
  - change (m11 (transform (Rounded.georeference this level north_pole d)))
      with (fl (-1 / Q)).
    replace (-1 / Q) with (- (1 / Q)) by (field; lra).
    pose proof (fl_opp_bound (1 / Q) ltac:(lra)) as Hup.
    apply (Rmult_le_compat_r Q) in Hup; [|lra].
    replace ((1 + u) * (1 / Q) * Q) with (1 + u) in Hup by (field; lra).
    exact Hup.
Qed.

(** The argument of the logarithm, from below. *)
Lemma rounded_level_argument_lower (georef : GeoReference) (r : R) :
  0 < semi_major_axis (datum georef) -> 0 < r ->
  (1 - u) ^ 3 * (r * 2 * semi_major_axis (datum georef))
  <= 256 * Rounded.level_argument georef r
  /\ 0 < Rounded.level_argument georef r.
Proof.
  intros HR Hr. unfold Rounded.level_argument.
  set (sma := semi_major_axis (datum georef)) in *.
  set (a1 := fl (r * 2)).
  set (a2 := fl (a1 * sma)).
  assert (Hk : 0 < 1 - u) by lra.
  assert (H1 : (1 - u) * (r * 2) <= a1) by (apply fl_bounds; lra).
  assert (H10 : 0 < a1) by (apply fl_pos; lra).
  assert (H1s : 0 < a1 * sma) by (apply Rmult_lt_0_compat; assumption).
  assert (H2 : (1 - u) * (a1 * sma) <= a2) by (apply fl_bounds; lra).
  assert (H20 : 0 < a2) by (apply fl_pos; exact H1s).
  assert (H3 : (1 - u) * (a2 / 256) <= fl (a2 / 256)) by (apply fl_bounds; lra).
  split; [|apply fl_pos; lra].
  assert (H1' : (1 - u) * ((1 - u) * ((1 - u) * (r * 2) * sma))
                <= (1 - u) * a2).
  { apply Rmult_le_compat_l; [lra|].
    apply Rle_trans with ((1 - u) * (a1 * sma)); [|exact H2].
    apply Rmult_le_compat_l; [lra|].
    apply Rmult_le_compat_r; [lra | exact H1]. }
  replace ((1 - u) ^ 3 * (r * 2 * sma))
    with ((1 - u) * ((1 - u) * ((1 - u) * (r * 2) * sma))) by ring.
  lra.
Qed.

(** The algebra that carries the bounds to the spacing. *)
Lemma slack_chain (k K E ls r a P Q S sma : R) :
  0 < k -> 0 < K -> 0 < E -> 0 < ls -> 0 < r -> 0 < a -> 0 < P -> 0 < Q ->
  0 < sma ->
  k <= r * ls ->
  k ^ 3 * (r * 2 * sma) <= 256 * a ->
  a <= P * E ->
  k ^ 3 * 256 * P <= Q * (K * (2 * sma)) ->
  S * Q <= K ->
  S <= E * K ^ 2 / k ^ 7 * ls.
Proof.
  intros Hk HK HE Hls Hr Ha HP HQ Hsma H1 H2 H3 H4 H5.
  assert (Hk3 : 0 < k ^ 3) by (apply pow_lt; exact Hk).
  assert (Hk7 : 0 < k ^ 7) by (apply pow_lt; exact Hk).
  (* Q E K ls >= k^7 *)
  assert (Hbig : k ^ 7 * (2 * sma) <= Q * (K * (2 * sma)) * E * ls).
  { assert (Ha' : k ^ 3 * 256 * a <= k ^ 3 * 256 * (P * E))
      by (apply Rmult_le_compat_l; [lra | exact H3]).
    assert (Hb' : k ^ 3 * (k ^ 3 * (r * 2 * sma)) <= k ^ 3 * (256 * a))
      by (apply Rmult_le_compat_l; [lra | exact H2]).
    assert (Hc' : k ^ 3 * 256 * P * E <= Q * (K * (2 * sma)) * E)
      by (apply Rmult_le_compat_r; [lra | exact H4]).
    assert (Hd' : k ^ 3 * k ^ 3 * (r * 2 * sma) <= Q * (K * (2 * sma)) * E)
      by lra.
    apply (Rmult_le_compat_r ls) in Hd'; [|lra].
    assert (He' : k ^ 3 * k ^ 3 * (2 * sma) * k
                  <= k ^ 3 * k ^ 3 * (2 * sma) * (r * ls)).
    { apply Rmult_le_compat_l; [|exact H1].
      apply Rmult_le_pos; [apply Rmult_le_pos; lra | lra]. }
    replace (k ^ 7 * (2 * sma)) with (k ^ 3 * k ^ 3 * (2 * sma) * k) by ring.
    replace (k ^ 3 * k ^ 3 * (r * 2 * sma) * ls)
      with (k ^ 3 * k ^ 3 * (2 * sma) * (r * ls)) in Hd' by ring.
    lra. }
  assert (Hbig' : k ^ 7 <= Q * K * E * ls).
  { apply (Rmult_le_reg_r (2 * sma)); [lra|].
    replace (Q * K * E * ls * (2 * sma)) with (Q * (K * (2 * sma)) * E * ls)
      by ring.
    exact Hbig. }
  apply (Rmult_le_reg_r (Q * k ^ 7)); [apply Rmult_lt_0_compat; lra|].
  replace (E * K ^ 2 / k ^ 7 * ls * (Q * k ^ 7)) with (K * (Q * K * E * ls))
    by (field; lra).
  apply Rle_trans with (K * k ^ 7).
  - replace (S * (Q * k ^ 7)) with (S * Q * k ^ 7) by ring.
    apply Rmult_le_compat_r; [lra | exact H5].
  - apply Rmult_le_compat_l; [lra | exact Hbig'].
Qed.


End RoundedFacts.

(** With exact arithmetic the rounded selector is the selector of the main
    development, and nothing is lost. *)
Lemma exact_transform_image
      {PixelT : Type} {GM : GeoMath} {RS : Resampler PixelT}
      (this : PolarStereoPlateManager PixelT)
      (georef : GeoReference) (image : ImageView PixelT) :
  @Rounded.transform_image PixelT ExactArith GM RS this georef image
  = transform_image this georef image.
Proof. reflexivity. Qed.

Lemma exact_is_accurate : @Rounded.accurate ExactArith 0 0.
Proof.
  split.
  - intros x. unfold fl, ExactArith.
    replace (x - x) with 0 by ring. rewrite Rabs_R0. lra.
  - intros x Hx. unfold Rounded.log2_fl, log2, fl, log_fl, ExactArith. lra.
Qed.

Lemma slack_exact : Rounded.slack 0 0 = 1.
Proof.
  unfold Rounded.slack. rewrite Rpower_O by lra. field.
Qed.




(** * The selector on binary64 numbers *)

Import PrimFloat.
Local Open Scope float_scope.

